(** * Verification of the title / meta-description length normalizer
      of [seo_fix_site.py]

    The development embeds the pure string functions of the script
    ([_normalize_space], [_trim_to_word_boundary], [_extend_description],
    [_smart_title] and the description branch of [fix_file]) and proves the
    properties the specification states about them.

    A Python [str] is a sequence of Unicode code points, a Python [int] is an
    unbounded integer: strings are lists of code points, lengths and indices
    are in [Z], and slicing follows Python's rules for negative and
    out-of-range bounds. *)

From Stdlib Require Import String Ascii ZArith NArith List Bool Lia.
From Stdlib Require Import Permutation Sorted DecimalString.
Import ListNotations.
Open Scope Z_scope.

(** ** Python strings *)

Module Py.

Definition char := N.
Definition str := list char.

(** An ASCII literal of the source, as a Python string. *)
Definition lit (s : string) : str := map N_of_ascii (list_ascii_of_string s).

Definition space : char := 32%N.

(** [len(s)] *)
Definition len (s : str) : Z := Z.of_nat (length s).

(** [str.isspace] on one code point; it is also the class [\s] of [re] on
    [str] patterns, and the set [str.strip()] removes. *)
Definition isspace (c : char) : bool :=
  ((9 <=? c) && (c <=? 13) || (28 <=? c) && (c <=? 32)
   || (c =? 133) || (c =? 160) || (c =? 5760)
   || (8192 <=? c) && (c <=? 8202)
   || (c =? 8232) || (c =? 8233) || (c =? 8239) || (c =? 8287)
   || (c =? 12288))%N.

Fixpoint lstrip (s : str) : str :=
  match s with
  | [] => []
  | c :: s' => if isspace c then lstrip s' else s
  end.

Definition rstrip (s : str) : str := rev (lstrip (rev s)).

(** [s.strip()] *)
Definition strip (s : str) : str := rstrip (lstrip s).

(** [re.sub(r"\s+", " ", s)]: every maximal run of whitespace becomes one
    space.  [in_run] tells that the previous character was whitespace. *)
Fixpoint sub_ws (in_run : bool) (s : str) : str :=
  match s with
  | [] => []
  | c :: s' =>
      if isspace c
      then (if in_run then sub_ws true s' else space :: sub_ws true s')
      else c :: sub_ws false s'
  end.

(** An index of a slice, brought into [0, n] the way Python does. *)
Definition clamp_index (n i : Z) : Z :=
  if i <? 0 then Z.max 0 (i + n) else Z.min i n.

(** [s[lo:hi]] *)
Definition slice (s : str) (lo hi : Z) : str :=
  let a := clamp_index (len s) lo in
  let b := clamp_index (len s) hi in
  firstn (Z.to_nat (b - a)) (skipn (Z.to_nat a) s).

(** [s.startswith(p)] *)
Fixpoint startswith (s p : str) : bool :=
  match p, s with
  | [], _ => true
  | _ :: _, [] => false
  | a :: p', c :: s' => (a =? c)%N && startswith s' p'
  end.

(** [sub in s] *)
Fixpoint contains (s sub : str) : bool :=
  startswith s sub ||
  match s with
  | [] => false
  | _ :: s' => contains s' sub
  end.

(** The highest index at which [sub] occurs in [s], when the first character
    of [s] has index [i]; [-1] when there is none. *)
Fixpoint rfind_at (s sub : str) (i : Z) : Z :=
  match s with
  | [] => if startswith [] sub then i else -1
  | _ :: s' =>
      let r := rfind_at s' sub (i + 1) in
      if 0 <=? r then r else if startswith s sub then i else -1
  end.

(** [s.rfind(sub)] *)
Definition rfind (s sub : str) : Z := rfind_at s sub 0.

(** [s.rfind(sub, start, stop)] *)
Definition rfind_in (s sub : str) (start stop : Z) : Z :=
  let n := len s in
  let b := clamp_index n stop in
  let a := if start <? 0 then Z.max 0 (start + n) else start in
  if b - a <? len sub then -1
  else
    let r := rfind (firstn (Z.to_nat (b - a)) (skipn (Z.to_nat a) s)) sub in
    if r <? 0 then -1 else a + r.

(** [sep.join(parts)] *)
Fixpoint join (sep : str) (parts : list str) : str :=
  match parts with
  | [] => []
  | [p] => p
  | p :: rest => p ++ sep ++ join sep rest
  end.

Definition str_eqb (a b : str) : bool :=
  if list_eq_dec N.eq_dec a b then true else false.

(** [str.lower] on ASCII text: only [A-Z] change. *)
Definition ascii_lower_char (c : char) : char :=
  if ((65 <=? c) && (c <=? 90))%N then (c + 32)%N else c.

Definition ascii_lower (s : str) : str := map ascii_lower_char s.

Definition is_ascii (s : str) : bool := forallb (fun c => (c <? 128)%N) s.

(** What the development relies on about [str.lower]: on a string of ASCII
    characters it is the ASCII lowering.  (On other code points it follows
    the Unicode tables, which the proofs never need.) *)
Definition lowers_ascii (lower : str -> str) : Prop :=
  forall s, is_ascii s = true -> lower s = ascii_lower s.

End Py.

Import Py.

(** ** The functions of [seo_fix_site.py] *)

(** [re.sub(r"\s+", " ", (text or "").strip())] *)
Definition _normalize_space (text : str) : str := sub_ws false (strip text).

(** The sentence ends tried, in order, by [_trim_to_word_boundary]. *)
Definition sentence_puncts : list str :=
  [lit ". "; lit "! "; lit "? "; lit "; "].

(** The [for punct in ...] loop of [_trim_to_word_boundary]: the cut of the
    first punctuation found in the window, if any. *)
Fixpoint sentence_cut (window : str) (window_start : Z) (puncts : list str)
  : option Z :=
  match puncts with
  | [] => None
  | punct :: rest =>
      let idx := rfind window punct in
      if negb (idx =? -1) then Some (window_start + idx + 1)
      else sentence_cut window window_start rest
  end.

Definition _trim_to_word_boundary (text : str) (max_len : Z) : str :=
  let text := _normalize_space text in
  if len text <=? max_len then text
  else
    let window_start := Z.max 0 (max_len - 60) in
    let window := slice text window_start max_len in
    match sentence_cut window window_start sentence_puncts with
    | Some cut => strip (slice text 0 cut)
    | None =>
        let cut := rfind_in text (lit " ") 0 (max_len + 1) in
        if cut <=? 0 then strip (slice text 0 max_len)
        else strip (slice text 0 cut)
    end.

Definition suffixes : list str :=
  [lit "Serving Detroit & Metro Detroit."; lit "Call (313) 389-6324."].

Definition extra : str := lit "Licensed & insured.".

(** The [for suffix in suffixes] loop of [_extend_description]: [inl r] when
    the loop returns [r], [inr text] when it ends with [text]. *)
Fixpoint extend_loop (text : str) (sfx : list str) (min_len max_len : Z)
  : str + str :=
  match sfx with
  | [] => inr text
  | suffix :: rest =>
      let candidate :=
        match text with
        | [] => suffix
        | _ => strip (text ++ lit " " ++ suffix)
        end in
      let candidate := _normalize_space candidate in
      if len candidate >? max_len then extend_loop text rest min_len max_len
      else
        let text := candidate in
        if len text >=? min_len then inl text
        else extend_loop text rest min_len max_len
  end.

Definition _extend_description (text : str) (min_len max_len : Z) : str :=
  let text := _normalize_space text in
  if len text >=? min_len then _trim_to_word_boundary text max_len
  else
    match extend_loop text suffixes min_len max_len with
    | inl r => r
    | inr text =>
        let candidate := _normalize_space (strip (text ++ lit " " ++ extra)) in
        if len candidate <=? max_len then candidate else text
    end.

(** The description branch of [fix_file], as a function of [old_desc]. *)
Definition fix_file_description (old_desc : str) (desc_min desc_max : Z)
  : str :=
  let d2 := old_desc in
  let d2 := if len d2 >? desc_max
            then _trim_to_word_boundary d2 desc_max else d2 in
  let d2 := if len d2 <? desc_min
            then _extend_description d2 desc_min desc_max else d2 in
  _trim_to_word_boundary d2 desc_max.

(** The separators of [re.split(r"[|\-–—:]", title)]. *)
Definition is_separator (c : char) : bool :=
  ((c =? 124) || (c =? 45) || (c =? 8211) || (c =? 8212) || (c =? 58))%N.

(** [re.split] on a single-character class. *)
Fixpoint re_split (s : str) : list str :=
  match s with
  | [] => [[]]
  | c :: s' =>
      if is_separator c then [] :: re_split s'
      else
        match re_split s' with
        | p :: ps => (c :: p) :: ps
        | [] => [[c]]
        end
  end.

Definition is_empty (s : str) : bool :=
  match s with [] => true | _ => false end.

Definition brand_name : str := lit "Midwest Flip LLC".

Definition fallback : str := lit "Midwest Flip LLC | Detroit Home Remodeling".

Definition keywords : list str :=
  [lit "detroit"; lit "metro detroit"; lit "remodel"; lit "contractor";
   lit "builder"; lit "services"].

Section Title.

(** [str.lower] *)
Variable lower : str -> str.

(** [[p.strip() for p in re.split(...) if p.strip()]] *)
Definition title_parts (title : str) : list str :=
  map strip (filter (fun p => negb (is_empty (strip p))) (re_split title)).

(** The first part naming the brand, if any. *)
Fixpoint find_brand (parts : list str) : option str :=
  match parts with
  | [] => None
  | p :: rest =>
      if contains (lower p) (lit "midwest") && contains (lower p) (lit "flip")
      then Some p
      else find_brand rest
  end.

(** The brand segment of a title: the first part naming the brand, or the
    default brand. *)
Definition title_brand (title : str) : str :=
  match find_brand (title_parts title) with
  | Some p => p
  | None => brand_name
  end.

(** The sort key of a descriptor. *)
Definition descriptor_key (p : str) : Z * Z :=
  (- Z.of_nat (length (filter (fun k => contains (lower p) k) keywords)),
   len p).

(** Python's order on pairs. *)
Definition key_le (a b : Z * Z) : bool :=
  (fst a <? fst b) || ((fst a =? fst b) && (snd a <=? snd b)).

(** The order of [sorted]: by the key of a descriptor. *)
Definition key_order (p q : str) : Prop :=
  key_le (descriptor_key p) (descriptor_key q) = true.

(** The descriptors whose key is [k]. *)
Definition has_key (k : Z * Z) (p : str) : bool :=
  (fst (descriptor_key p) =? fst k) && (snd (descriptor_key p) =? snd k).

Fixpoint insert_by_key (p : str) (l : list str) : list str :=
  match l with
  | [] => [p]
  | q :: l' =>
      if key_le (descriptor_key p) (descriptor_key q) then p :: q :: l'
      else q :: insert_by_key p l'
  end.

(** [sorted(descriptors, key=...)]: a stable sort. *)
Fixpoint sorted_by_key (l : list str) : list str :=
  match l with
  | [] => []
  | p :: l' => insert_by_key p (sorted_by_key l')
  end.

(** The [for p in descriptors_sorted] loop of [_smart_title]. *)
Fixpoint pick_parts (candidate_parts : list str) (descs : list str)
  (min_len max_len : Z) : list str :=
  match descs with
  | [] => candidate_parts
  | p :: rest =>
      let cand := join (lit " | ") (candidate_parts ++ [p]) in
      let candidate_parts :=
        if len cand <=? max_len then candidate_parts ++ [p]
        else candidate_parts in
      if len (join (lit " | ") candidate_parts) >=? min_len
      then candidate_parts
      else pick_parts candidate_parts rest min_len max_len
  end.

(** The [if len(title) < min_len] block. *)
Definition expand_title (title : str) (min_len max_len : Z) : str :=
  if len title <? min_len then
    let title :=
      if negb (contains (lower title) (lit "midwest flip"))
      then (if is_empty title then brand_name
            else _normalize_space (title ++ lit " | Midwest Flip LLC"))
      else title in
    if len title <? min_len then
      let add := if negb (contains (lower title) (lit "detroit"))
                 then lit "Detroit" else lit "Michigan" in
      let candidate := _normalize_space (title ++ lit " | " ++ add) in
      if len candidate <=? max_len then candidate else title
    else title
  else title.

(** The [if len(title) > max_len] block. *)
Definition shorten_title (title : str) (min_len max_len : Z) : str :=
  if len title >? max_len then
    let parts := title_parts title in
    let brand :=
      match find_brand parts with
      | Some p => p
      | None => brand_name
      end in
    let descriptors := filter (fun p => negb (str_eqb p brand)) parts in
    let descriptors_sorted := sorted_by_key descriptors in
    let candidate_parts := pick_parts [brand] descriptors_sorted min_len max_len in
    let title := join (lit " | ") candidate_parts in
    if len title >? max_len then _trim_to_word_boundary title max_len
    else title
  else title.

Definition _smart_title (title : str) (min_len max_len : Z) : str :=
  let title := _normalize_space title in
  let title := expand_title title min_len max_len in
  let title := shorten_title title min_len max_len in
  let title := _trim_to_word_boundary title max_len in
  if (len title <? min_len)
     && (min_len <=? len fallback) && (len fallback <=? max_len)
  then fallback
  else title.

End Title.

(** ** The same functions on dynamically typed values

    Python checks the types of its operands when an operation runs: a method
    that the receiver does not have raises [AttributeError], an operand of
    the wrong type raises [TypeError].  Here the three functions are written
    again over values that may be [None], an [int] or a [str], every
    operation returning a result or the exception it raises. *)

Module Dyn.

Inductive value : Type :=
| VNone
| VInt (z : Z)
| VStr (s : str).

Inductive exn : Type :=
| TypeError
| AttributeError.

Inductive result (A : Type) : Type :=
| Ok (a : A)
| Raise (e : exn).

Arguments Ok {A} a.
Arguments Raise {A} e.

Definition bind {A B : Type} (r : result A) (f : A -> result B) : result B :=
  match r with
  | Ok a => f a
  | Raise e => Raise e
  end.

Notation "x <- r ;; k" := (bind r (fun x => k))
  (at level 61, r at next level, right associativity).

(** [bool(v)] *)
Definition truthy (v : value) : bool :=
  match v with
  | VNone => false
  | VInt z => negb (z =? 0)
  | VStr s => negb (is_empty s)
  end.

(** [a or b] *)
Definition py_or (a b : value) : value := if truthy a then a else b.

(** [a == b] *)
Definition value_eqb (a b : value) : bool :=
  match a, b with
  | VNone, VNone => true
  | VInt x, VInt y => x =? y
  | VStr x, VStr y => str_eqb x y
  | _, _ => false
  end.

(** [a != b] *)
Definition py_ne (a b : value) : bool := negb (value_eqb a b).

(** The order of [str]: by code points. *)
Fixpoint str_compare (a b : str) : comparison :=
  match a, b with
  | [], [] => Eq
  | [], _ :: _ => Lt
  | _ :: _, [] => Gt
  | x :: a', y :: b' =>
      match (x ?= y)%N with
      | Eq => str_compare a' b'
      | c => c
      end
  end.

(** The comparison behind [<], [<=], [>] and [>=]. *)
Definition py_cmp (a b : value) : result comparison :=
  match a, b with
  | VInt x, VInt y => Ok (x ?= y)
  | VStr x, VStr y => Ok (str_compare x y)
  | _, _ => Raise TypeError
  end.

Definition py_le (a b : value) : result bool :=
  c <- py_cmp a b ;; Ok match c with Gt => false | _ => true end.

Definition py_lt (a b : value) : result bool :=
  c <- py_cmp a b ;; Ok match c with Lt => true | _ => false end.

Definition py_ge (a b : value) : result bool :=
  c <- py_cmp a b ;; Ok match c with Lt => false | _ => true end.

Definition py_gt (a b : value) : result bool :=
  c <- py_cmp a b ;; Ok match c with Gt => true | _ => false end.

(** [a + b] *)
Definition py_add (a b : value) : result value :=
  match a, b with
  | VInt x, VInt y => Ok (VInt (x + y))
  | VStr x, VStr y => Ok (VStr (x ++ y))
  | _, _ => Raise TypeError
  end.

(** [a - b] *)
Definition py_sub (a b : value) : result value :=
  match a, b with
  | VInt x, VInt y => Ok (VInt (x - y))
  | _, _ => Raise TypeError
  end.

(** [max(a, b)] *)
Definition py_max (a b : value) : result value :=
  c <- py_gt b a ;; Ok (if c then b else a).

(** [len(v)] *)
Definition py_len (v : value) : result value :=
  match v with
  | VStr s => Ok (VInt (len s))
  | _ => Raise TypeError
  end.

(** [v.strip()] *)
Definition py_strip (v : value) : result value :=
  match v with
  | VStr s => Ok (VStr (strip s))
  | _ => Raise AttributeError
  end.

(** [re.sub(r"\s+", " ", v)] *)
Definition re_sub_ws (v : value) : result value :=
  match v with
  | VStr s => Ok (VStr (sub_ws false s))
  | _ => Raise TypeError
  end.

(** A bound of a slice or of a search: an [int], or [None] for the
    default. *)
Definition py_bound (default : Z) (v : value) : result Z :=
  match v with
  | VNone => Ok default
  | VInt z => Ok z
  | VStr _ => Raise TypeError
  end.

(** [v[lo:hi]] *)
Definition py_slice (v lo hi : value) : result value :=
  match v with
  | VStr s =>
      a <- py_bound 0 lo ;;
      b <- py_bound (len s) hi ;;
      Ok (VStr (slice s a b))
  | _ => Raise TypeError
  end.

(** [v.rfind(sub)] *)
Definition py_rfind (v sub : value) : result value :=
  match v with
  | VStr s =>
      match sub with
      | VStr p => Ok (VInt (rfind s p))
      | _ => Raise TypeError
      end
  | _ => Raise AttributeError
  end.

(** [v.rfind(sub, start, stop)] *)
Definition py_rfind_in (v sub start stop : value) : result value :=
  match v with
  | VStr s =>
      match sub with
      | VStr p =>
          a <- py_bound 0 start ;;
          b <- py_bound (len s) stop ;;
          Ok (VInt (rfind_in s p a b))
      | _ => Raise TypeError
      end
  | _ => Raise AttributeError
  end.

(** [needle in hay] *)
Definition py_contains (needle hay : value) : result bool :=
  match hay, needle with
  | VStr h, VStr n => Ok (contains h n)
  | _, _ => Raise TypeError
  end.

(** [str(v)], as an f-string formats it. *)
Definition py_format (v : value) : str :=
  match v with
  | VNone => lit "None"
  | VInt z => lit (NilZero.string_of_int (Z.to_int z))
  | VStr s => s
  end.

(** The items of a list when they are all [str]. *)
Fixpoint strs_of (xs : list value) : option (list str) :=
  match xs with
  | [] => Some []
  | VStr s :: xs' =>
      match strs_of xs' with
      | Some l => Some (s :: l)
      | None => None
      end
  | _ :: _ => None
  end.

(** [sep.join(xs)] *)
Definition py_join (sep : str) (xs : list value) : result value :=
  match strs_of xs with
  | Some l => Ok (VStr (join sep l))
  | None => Raise TypeError
  end.

(** [re.split(r"[|\-–—:]", v)] *)
Definition py_re_split (v : value) : result (list value) :=
  match v with
  | VStr s => Ok (map VStr (re_split s))
  | _ => Raise TypeError
  end.

Definition py_normalize_space (text : value) : result value :=
  t <- py_strip (py_or text (VStr [])) ;;
  re_sub_ws t.

Fixpoint py_sentence_loop (text window window_start : value)
  (puncts : list value) : result (option value) :=
  match puncts with
  | [] => Ok None
  | punct :: rest =>
      idx <- py_rfind window punct ;;
      if py_ne idx (VInt (-1)) then
        a <- py_add window_start idx ;;
        cut <- py_add a (VInt 1) ;;
        pre <- py_slice text VNone cut ;;
        r <- py_strip pre ;;
        Ok (Some r)
      else py_sentence_loop text window window_start rest
  end.

Definition py_trim_to_word_boundary (text max_len : value) : result value :=
  text <- py_normalize_space text ;;
  n <- py_len text ;;
  c <- py_le n max_len ;;
  if c then Ok text
  else
    d <- py_sub max_len (VInt 60) ;;
    window_start <- py_max (VInt 0) d ;;
    window <- py_slice text window_start max_len ;;
    found <- py_sentence_loop text window window_start
               (map VStr sentence_puncts) ;;
    match found with
    | Some r => Ok r
    | None =>
        stop <- py_add max_len (VInt 1) ;;
        cut <- py_rfind_in text (VStr (lit " ")) (VInt 0) stop ;;
        c <- py_le cut (VInt 0) ;;
        if c then pre <- py_slice text VNone max_len ;; py_strip pre
        else pre <- py_slice text VNone cut ;; py_strip pre
    end.

Fixpoint py_extend_loop (text : value) (sfx : list value)
  (min_len max_len : value) : result (value + value) :=
  match sfx with
  | [] => Ok (inr text)
  | suffix :: rest =>
      candidate <-
        (if truthy text
         then a <- py_add text (VStr (lit " ")) ;;
              b <- py_add a suffix ;;
              py_strip b
         else Ok suffix) ;;
      candidate <- py_normalize_space candidate ;;
      n <- py_len candidate ;;
      c <- py_gt n max_len ;;
      if c then py_extend_loop text rest min_len max_len
      else
        let text := candidate in
        n <- py_len text ;;
        c <- py_ge n min_len ;;
        if c then Ok (inl text)
        else py_extend_loop text rest min_len max_len
  end.

Definition py_extend_description (text min_len max_len : value)
  : result value :=
  text <- py_normalize_space text ;;
  n <- py_len text ;;
  c <- py_ge n min_len ;;
  if c then py_trim_to_word_boundary text max_len
  else
    r <- py_extend_loop text (map VStr suffixes) min_len max_len ;;
    match r with
    | inl v => Ok v
    | inr text =>
        a <- py_add text (VStr (lit " ")) ;;
        b <- py_add a (VStr extra) ;;
        s <- py_strip b ;;
        candidate <- py_normalize_space s ;;
        n <- py_len candidate ;;
        c <- py_le n max_len ;;
        Ok (if c then candidate else text)
    end.

Section DynTitle.

(** [str.lower] *)
Variable lower : str -> str.

(** [v.lower()] *)
Definition py_lower (v : value) : result value :=
  match v with
  | VStr s => Ok (VStr (lower s))
  | _ => Raise AttributeError
  end.

(** The [if len(title) < min_len] block. *)
Definition py_expand_title (title min_len max_len : value) : result value :=
  n <- py_len title ;;
  c <- py_lt n min_len ;;
  if c then
    l <- py_lower title ;;
    has <- py_contains (VStr (lit "midwest flip")) l ;;
    title <-
      (if negb has
       then (if truthy title
             then py_normalize_space
                    (VStr (py_format title ++ lit " | Midwest Flip LLC"))
             else Ok (VStr brand_name))
       else Ok title) ;;
    n <- py_len title ;;
    c <- py_lt n min_len ;;
    if c then
      l <- py_lower title ;;
      has <- py_contains (VStr (lit "detroit")) l ;;
      let add := if negb has then VStr (lit "Detroit")
                 else VStr (lit "Michigan") in
      candidate <- py_normalize_space
                     (VStr (py_format title ++ lit " | " ++ py_format add)) ;;
      n <- py_len candidate ;;
      c <- py_le n max_len ;;
      Ok (if c then candidate else title)
    else Ok title
  else Ok title.

(** [[p.strip() for p in pieces if p.strip()]] *)
Fixpoint py_parts (pieces : list value) : result (list value) :=
  match pieces with
  | [] => Ok []
  | p :: rest =>
      c <- py_strip p ;;
      if truthy c then
        v <- py_strip p ;;
        r <- py_parts rest ;;
        Ok (v :: r)
      else py_parts rest
  end.

(** The loop that looks for the brand; [None] when no part names it. *)
Fixpoint py_find_brand (parts : list value) : result value :=
  match parts with
  | [] => Ok VNone
  | p :: rest =>
      l <- py_lower p ;;
      a <- py_contains (VStr (lit "midwest")) l ;;
      c <- (if a then l <- py_lower p ;; py_contains (VStr (lit "flip")) l
            else Ok false) ;;
      if c then Ok p else py_find_brand rest
  end.

(** [sum(1 for k in keywords if k in p.lower())] *)
Fixpoint py_count_keywords (p : value) (ks : list value) : result Z :=
  match ks with
  | [] => Ok 0
  | k :: ks' =>
      l <- py_lower p ;;
      c <- py_contains k l ;;
      r <- py_count_keywords p ks' ;;
      Ok (if c then 1 + r else r)
  end.

(** The key of a descriptor, a pair of [int]. *)
Definition py_key (p : value) : result (value * value) :=
  count <- py_count_keywords p (map VStr keywords) ;;
  n <- py_len p ;;
  Ok (VInt (- count), n).

(** [a < b] on pairs: the first components that differ decide. *)
Definition py_pair_lt (a b : value * value) : result bool :=
  if value_eqb (fst a) (fst b)
  then (if value_eqb (snd a) (snd b) then Ok false
        else py_lt (snd a) (snd b))
  else py_lt (fst a) (fst b).

Fixpoint py_keys (l : list value) : result (list ((value * value) * value)) :=
  match l with
  | [] => Ok []
  | p :: l' =>
      k <- py_key p ;;
      r <- py_keys l' ;;
      Ok ((k, p) :: r)
  end.

Fixpoint py_insert (x : (value * value) * value)
  (l : list ((value * value) * value))
  : result (list ((value * value) * value)) :=
  match l with
  | [] => Ok [x]
  | y :: l' =>
      c <- py_pair_lt (fst y) (fst x) ;;
      if c then r <- py_insert x l' ;; Ok (y :: r)
      else Ok (x :: y :: l')
  end.

Fixpoint py_sort (l : list ((value * value) * value))
  : result (list ((value * value) * value)) :=
  match l with
  | [] => Ok []
  | x :: l' => r <- py_sort l' ;; py_insert x r
  end.

(** [sorted(descriptors, key=...)]: the keys first, then a stable sort. *)
Definition py_sorted (descriptors : list value) : result (list value) :=
  keyed <- py_keys descriptors ;;
  r <- py_sort keyed ;;
  Ok (map snd r).

(** The [for p in descriptors_sorted] loop. *)
Fixpoint py_pick_parts (candidate_parts descs : list value)
  (min_len max_len : value) : result (list value) :=
  match descs with
  | [] => Ok candidate_parts
  | p :: rest =>
      cand <- py_join (lit " | ") (candidate_parts ++ [p]) ;;
      n <- py_len cand ;;
      c <- py_le n max_len ;;
      let candidate_parts :=
        if c then candidate_parts ++ [p] else candidate_parts in
      j <- py_join (lit " | ") candidate_parts ;;
      n <- py_len j ;;
      c <- py_ge n min_len ;;
      if c then Ok candidate_parts
      else py_pick_parts candidate_parts rest min_len max_len
  end.

(** The [if len(title) > max_len] block. *)
Definition py_shorten_title (title min_len max_len : value) : result value :=
  n <- py_len title ;;
  c <- py_gt n max_len ;;
  if c then
    pieces <- py_re_split title ;;
    parts <- py_parts pieces ;;
    brand <- py_find_brand parts ;;
    let brand := if negb (truthy brand) then VStr brand_name else brand in
    let descriptors := filter (fun p => py_ne p brand) parts in
    descriptors_sorted <- py_sorted descriptors ;;
    candidate_parts <- py_pick_parts [brand] descriptors_sorted
                         min_len max_len ;;
    title <- py_join (lit " | ") candidate_parts ;;
    n <- py_len title ;;
    c <- py_gt n max_len ;;
    if c then py_trim_to_word_boundary title max_len else Ok title
  else Ok title.

Definition py_smart_title (title min_len max_len : value) : result value :=
  title <- py_normalize_space title ;;
  title <- py_expand_title title min_len max_len ;;
  title <- py_shorten_title title min_len max_len ;;
  title <- py_trim_to_word_boundary title max_len ;;
  n <- py_len title ;;
  c <- py_lt n min_len ;;
  if c then
    m <- py_len (VStr fallback) ;;
    c1 <- py_le min_len m ;;
    c2 <- (if c1 then py_le m max_len else Ok false) ;;
    if c2 then Ok (VStr fallback) else Ok title
  else Ok title.

End DynTitle.

End Dyn.

(** ** Escaping and the title element *)

(** [s.replace(old, new)] for a one-character [old]. *)
Fixpoint replace_char (old : char) (new : str) (s : str) : str :=
  match s with
  | [] => []
  | c :: s' =>
      if (c =? old)%N then new ++ replace_char old new s'
      else c :: replace_char old new s'
  end.

(** [html.escape(s, quote)] of the Python library: the ampersand first, then
    the angle brackets, then, with [quote], the two quotes. *)
Definition html_escape (s : str) (quote : bool) : str :=
  let s := replace_char 38%N (lit "&amp;") s in
  let s := replace_char 60%N (lit "&lt;") s in
  let s := replace_char 62%N (lit "&gt;") s in
  if quote then
    let s := replace_char 34%N (lit "&quot;") s in
    replace_char 39%N (lit "&#x27;") s
  else s.

Definition _escape_text (text : str) : str := html_escape text false.

Definition _escape_attr (text : str) : str := html_escape text true.

Section TitleRe.

(** How [re.IGNORECASE] compares a letter of the pattern with a character of
    the text. *)
Variable letter_eq : char -> char -> bool.

(** [html.unescape] *)
Variable unescape : str -> str.

(** [str.lower] *)
Variable lower : str -> str.

Definition is_letter (p : char) : bool :=
  ((97 <=? p) && (p <=? 122) || (65 <=? p) && (p <=? 90))%N.

(** One character of a literal of the pattern against one of the text: the
    letters ignore case, every other character matches itself only. *)
Definition pat_matches (p c : char) : bool :=
  if is_letter p then letter_eq p c else (p =? c)%N.

(** The literal [pat] matches at the start of [s]. *)
Fixpoint lit_at (pat s : str) : bool :=
  match pat, s with
  | [], _ => true
  | _ :: _, [] => false
  | p :: pat', c :: s' => pat_matches p c && lit_at pat' s'
  end.

(** The index of the first [>] of [s]: where [[^>]*>] ends. *)
Fixpoint find_gt (s : str) : option nat :=
  match s with
  | [] => None
  | c :: s' => if (c =? 62)%N then Some 0%nat else option_map S (find_gt s')
  end.

(** The least index of [s] at which the literal [pat] matches: where the
    lazy [.*?] stops. *)
Fixpoint find_lit (pat s : str) : option nat :=
  if lit_at pat s then Some 0%nat
  else
    match s with
    | [] => None
    | _ :: s' => option_map S (find_lit pat s')
    end.

(** [TITLE_RE], that is [(<title[^>]*>)(.*?)(</title>)] with [IGNORECASE]
    and [DOTALL], matched at the start of [s]: the start and the end of
    group 2.  After [<title] the greedy [[^>]*] must be followed by [>], so
    group 1 ends at the first [>]; the lazy group 2 ends at the first
    [</title>] after it. *)
Definition title_match (s : str) : option (nat * nat) :=
  if lit_at (lit "<title") s then
    match find_gt (skipn 6 s) with
    | None => None
    | Some j =>
        let a := (6 + j + 1)%nat in
        match find_lit (lit "</title>") (skipn a s) with
        | None => None
        | Some k => Some (a, (a + k)%nat)
        end
    end
  else None.

(** [TITLE_RE.search(doc)]: the leftmost match; [(m.start(2), m.end(2))]. *)
Fixpoint title_search (doc : str) : option (nat * nat) :=
  match title_match doc with
  | Some m => Some m
  | None =>
      match doc with
      | [] => None
      | _ :: doc' =>
          option_map (fun m => (S (fst m), S (snd m))) (title_search doc')
      end
  end.

Definition _find_and_replace_title (doc new_title : str) : str * bool :=
  match title_search doc with
  | None => (doc, false)
  | Some (a, b) =>
      (slice doc 0 (Z.of_nat a) ++ _escape_text new_title
         ++ slice doc (Z.of_nat b) (len doc), true)
  end.

(** [m.group(2)] of [TITLE_RE.search(doc)]. *)
Definition title_content (doc : str) : option str :=
  match title_search doc with
  | None => None
  | Some (a, b) => Some (slice doc (Z.of_nat a) (Z.of_nat b))
  end.

Definition _extract_title (doc : str) : option str :=
  match title_content doc with
  | None => None
  | Some g => Some (_normalize_space (unescape g))
  end.

(** The title branch of [fix_file]: the document, [changed] and
    [new_title] after it. *)
Definition fix_file_title (doc : str) (title_min title_max : Z)
  : str * bool * option str :=
  let old_title := _extract_title doc in
  match old_title with
  | None => (doc, false, old_title)
  | Some t =>
      let t2 := _smart_title lower t title_min title_max in
      if negb (str_eqb t2 t) then
        let '(doc2, ok) := _find_and_replace_title doc t2 in
        if ok then (doc2, true, Some t2) else (doc2, false, old_title)
      else (doc, false, old_title)
  end.

End TitleRe.

(** [re.IGNORECASE] on ASCII text. *)
Definition ascii_letter_eq (p c : char) : bool :=
  (ascii_lower_char p =? ascii_lower_char c)%N.

(** ** The list of files of [main] *)

Section Dedupe.

(** The paths, with their equality. *)
Variable path : Type.
Variable path_eq_dec : forall x y : path, {x = y} + {x <> y}.

(** The [# Dedupe] loop of [main]: [seen] is the set of paths met so far,
    [files] the list built so far. *)
Fixpoint dedupe_loop (seen files target_files : list path) : list path :=
  match target_files with
  | [] => files
  | f :: rest =>
      if in_dec path_eq_dec f seen then dedupe_loop seen files rest
      else dedupe_loop (f :: seen) (files ++ [f]) rest
  end.

Definition dedupe (target_files : list path) : list path :=
  dedupe_loop [] [] target_files.

End Dedupe.

(** A page with a title in range, for the examples. *)
Definition sample_page : str :=
  lit "<html><head><TITLE>Roofing contractor in Detroit, Michigan</title></head></html>".

(** ** Whitespace-normalized strings *)

(** The first character, if any, is not whitespace. *)
Definition no_leading_ws (s : str) : bool :=
  match s with
  | [] => true
  | c :: _ => negb (isspace c)
  end.

(** The last character, if any, is not whitespace. *)
Fixpoint no_trailing_ws (s : str) : bool :=
  match s with
  | [] => true
  | c :: s' =>
      match s' with
      | [] => negb (isspace c)
      | _ :: _ => no_trailing_ws s'
      end
  end.

(** Every whitespace character is a plain space, and the character after it,
    if any, is not whitespace: there is no run of two whitespace characters. *)
Fixpoint single_spaced (s : str) : bool :=
  match s with
  | [] => true
  | c :: s' =>
      (if isspace c then (c =? space)%N && no_leading_ws s' else true)
      && single_spaced s'
  end.

Definition clean (s : str) : bool :=
  no_leading_ws s && no_trailing_ws s && single_spaced s.

(** [r] is [t] cut at a word boundary: a prefix of [t] that is followed in
    [t] by a space (and so ends a word, or a sentence). *)
Definition cut_at_boundary (t r : str) : Prop :=
  exists rest, t = r ++ space :: rest.

(** [r] is [t] cut in the middle of a word: a prefix of [t] whose last
    character and the character after it in [t] are both not spaces. *)
Definition mid_word_cut (t r : str) : Prop :=
  exists a c d rest, r = a ++ [c] /\ t = r ++ d :: rest
                     /\ c <> space /\ d <> space.

(** No two consecutive characters of [r] are both whitespace. *)
Definition no_ws_run (r : str) : Prop :=
  forall (k : nat) (c d : char),
    nth_error r k = Some c -> nth_error r (S k) = Some d ->
    isspace c = true -> isspace d = false.

(** [r] is whitespace-normalized: a fixed point of [_normalize_space], with
    no whitespace at either end and no run of whitespace inside. *)
Definition whitespace_normalized (r : str) : Prop :=
  _normalize_space r = r
  /\ no_leading_ws r = true /\ no_trailing_ws r = true /\ no_ws_run r.

(** The title of the truncation example. *)
Definition kitchen_title : str :=
  lit "Kitchen Remodeling Services for Metro Detroit Homes Today".

(** * Properties *)

(** ** Stripping *)

Lemma len_nonneg (s : str) : 0 <= len s.
Proof. unfold len. lia. Qed.

Lemma lstrip_suffix (s : str) : exists w, s = w ++ lstrip s.
Proof.
  induction s as [|c s IH]; simpl.
  - now exists [].
  - destruct (isspace c).
    + destruct IH as [w Hw]. exists (c :: w). simpl. now f_equal.
    + now exists [].
Qed.

Lemma rstrip_prefix (s : str) : exists w, s = rstrip s ++ w.
Proof.
  unfold rstrip. destruct (lstrip_suffix (rev s)) as [w Hw].
  exists (rev w). rewrite <- rev_app_distr, <- Hw. now rewrite rev_involutive.
Qed.

Lemma lstrip_length (s : str) : (length (lstrip s) <= length s)%nat.
Proof.
  destruct (lstrip_suffix s) as [w Hw]. rewrite Hw at 2.
  rewrite length_app. lia.
Qed.

Lemma rstrip_length (s : str) : (length (rstrip s) <= length s)%nat.
Proof.
  destruct (rstrip_prefix s) as [w Hw]. rewrite Hw at 2.
  rewrite length_app. lia.
Qed.

Lemma strip_length (s : str) : (length (strip s) <= length s)%nat.
Proof.
  unfold strip. pose proof (rstrip_length (lstrip s)).
  pose proof (lstrip_length s). lia.
Qed.

Lemma no_leading_lstrip (s : str) : no_leading_ws (lstrip s) = true.
Proof.
  induction s as [|c s IH]; simpl; auto.
  destruct (isspace c) eqn:E; auto. simpl. now rewrite E.
Qed.

Lemma lstrip_id (s : str) : no_leading_ws s = true -> lstrip s = s.
Proof.
  destruct s as [|c s]; simpl; auto.
  now destruct (isspace c).
Qed.

Lemma no_leading_app_l (a b : str) :
  no_leading_ws (a ++ b) = true -> no_leading_ws a = true.
Proof. destruct a; simpl; auto. Qed.

Lemma no_trailing_snoc (s : str) (c : char) :
  no_trailing_ws (s ++ [c]) = negb (isspace c).
Proof.
  induction s as [|d s IH]; simpl; auto.
  destruct (s ++ [c]) eqn:E; auto.
  destruct s; discriminate.
Qed.

Lemma no_trailing_rev (s : str) : no_trailing_ws s = no_leading_ws (rev s).
Proof.
  destruct s as [|c s] using rev_ind; auto.
  rewrite no_trailing_snoc, rev_app_distr. reflexivity.
Qed.

Lemma no_trailing_rstrip (s : str) : no_trailing_ws (rstrip s) = true.
Proof.
  unfold rstrip. rewrite no_trailing_rev, rev_involutive.
  apply no_leading_lstrip.
Qed.

Lemma rstrip_id (s : str) : no_trailing_ws s = true -> rstrip s = s.
Proof.
  intros H. unfold rstrip. rewrite no_trailing_rev in H.
  rewrite (lstrip_id _ H). apply rev_involutive.
Qed.

Lemma single_spaced_app_l (a b : str) :
  single_spaced (a ++ b) = true -> single_spaced a = true.
Proof.
  induction a as [|c a IH]; simpl; auto.
  intros H. apply andb_true_iff in H. destruct H as [H1 H2].
  rewrite (IH H2), andb_true_r.
  destruct (isspace c); auto.
  apply andb_true_iff in H1. destruct H1 as [H1 H3].
  rewrite H1. simpl. eapply no_leading_app_l; eauto.
Qed.

Lemma clean_parts (s : str) :
  clean s = true <->
  no_leading_ws s = true /\ no_trailing_ws s = true /\ single_spaced s = true.
Proof.
  unfold clean. rewrite !andb_true_iff. tauto.
Qed.

(** Stripping a string that starts a word and is single-spaced leaves a
    clean string. *)
Lemma clean_strip (a : str) :
  no_leading_ws a = true -> single_spaced a = true -> clean (strip a) = true.
Proof.
  intros Hl Hs. unfold strip. rewrite (lstrip_id _ Hl).
  destruct (rstrip_prefix a) as [w Hw].
  apply clean_parts. repeat split.
  - rewrite Hw in Hl. eapply no_leading_app_l; eauto.
  - apply no_trailing_rstrip.
  - rewrite Hw in Hs. eapply single_spaced_app_l; eauto.
Qed.

Lemma strip_clean (s : str) : clean s = true -> strip s = s.
Proof.
  intros H. apply clean_parts in H. destruct H as (Hl & Ht & _).
  unfold strip. rewrite (lstrip_id _ Hl). now apply rstrip_id.
Qed.

(** ** Collapsing whitespace *)

Lemma sub_ws_length (b : bool) (s : str) :
  (length (sub_ws b s) <= length s)%nat.
Proof.
  revert b. induction s as [|c s IH]; intros b; simpl; auto.
  pose proof (IH true). pose proof (IH false).
  destruct (isspace c); [destruct b|]; simpl; lia.
Qed.

Lemma no_leading_sub_ws_run (s : str) : no_leading_ws (sub_ws true s) = true.
Proof.
  induction s as [|c s IH]; simpl; auto.
  destruct (isspace c) eqn:E; auto. simpl. now rewrite E.
Qed.

Lemma no_leading_sub_ws (s : str) :
  no_leading_ws s = true -> no_leading_ws (sub_ws false s) = true.
Proof.
  destruct s as [|c s]; simpl; auto.
  destruct (isspace c) eqn:E; try discriminate. simpl. now rewrite E.
Qed.

Lemma no_trailing_cons (c : char) (s : str) :
  s <> [] -> no_trailing_ws (c :: s) = no_trailing_ws s.
Proof. destruct s; simpl; congruence. Qed.

Lemma no_trailing_ws_cons_inv (c : char) (s : str) :
  isspace c = true -> no_trailing_ws (c :: s) = true ->
  s <> [] /\ no_trailing_ws s = true.
Proof.
  intros E H. destruct s as [|d s].
  - simpl in H. rewrite E in H. discriminate.
  - split; [discriminate | exact H].
Qed.

Lemma no_trailing_tail (c : char) (s : str) :
  no_trailing_ws (c :: s) = true -> no_trailing_ws s = true.
Proof. destruct s; simpl; auto. Qed.

Lemma sub_ws_run_nonempty (s : str) :
  s <> [] -> no_trailing_ws s = true -> sub_ws true s <> [].
Proof.
  induction s as [|c s IH]; intros Hne Ht; [congruence|].
  simpl. destruct (isspace c) eqn:E; [|discriminate].
  destruct (no_trailing_ws_cons_inv _ _ E Ht) as [Hs Ht']. auto.
Qed.

Lemma no_trailing_sub_ws (b : bool) (s : str) :
  no_trailing_ws s = true -> no_trailing_ws (sub_ws b s) = true.
Proof.
  revert b. induction s as [|c s IH]; intros b Ht; auto.
  simpl. destruct (isspace c) eqn:E.
  - destruct (no_trailing_ws_cons_inv _ _ E Ht) as [Hs Ht'].
    destruct b; auto.
    rewrite no_trailing_cons by now apply sub_ws_run_nonempty.
    auto.
  - pose proof (IH false (no_trailing_tail _ _ Ht)) as IH'.
    destruct (sub_ws false s) eqn:Es.
    + simpl. now rewrite E.
    + rewrite no_trailing_cons by discriminate. exact IH'.
Qed.

Lemma single_spaced_sub_ws (b : bool) (s : str) :
  single_spaced (sub_ws b s) = true.
Proof.
  revert b. induction s as [|c s IH]; intros b; auto.
  simpl. destruct (isspace c) eqn:E.
  - destruct b; auto. simpl.
    rewrite no_leading_sub_ws_run, IH. reflexivity.
  - simpl. rewrite E, IH. reflexivity.
Qed.

Lemma sub_ws_run_no_leading (s : str) :
  no_leading_ws s = true -> sub_ws true s = sub_ws false s.
Proof.
  destruct s as [|c s]; simpl; auto.
  destruct (isspace c); simpl; congruence.
Qed.

Lemma sub_ws_single_spaced (s : str) :
  single_spaced s = true -> sub_ws false s = s.
Proof.
  induction s as [|c s IH]; simpl; auto.
  intros H. apply andb_true_iff in H. destruct H as [H1 H2].
  destruct (isspace c).
  - apply andb_true_iff in H1. destruct H1 as [H1 H3].
    apply N.eqb_eq in H1. subst c.
    rewrite (sub_ws_run_no_leading _ H3), (IH H2). reflexivity.
  - now rewrite (IH H2).
Qed.

(** ** [_normalize_space] *)

Lemma no_leading_strip (s : str) : no_leading_ws (strip s) = true.
Proof.
  unfold strip. destruct (rstrip_prefix (lstrip s)) as [w Hw].
  pose proof (no_leading_lstrip s) as H. rewrite Hw in H.
  eapply no_leading_app_l; eauto.
Qed.

Lemma normalize_space_clean (s : str) : clean (_normalize_space s) = true.
Proof.
  unfold _normalize_space. apply clean_parts. repeat split.
  - apply no_leading_sub_ws, no_leading_strip.
  - apply no_trailing_sub_ws. unfold strip. apply no_trailing_rstrip.
  - apply single_spaced_sub_ws.
Qed.

Lemma normalize_space_fixed (s : str) :
  clean s = true -> _normalize_space s = s.
Proof.
  intros H. unfold _normalize_space. rewrite (strip_clean _ H).
  apply sub_ws_single_spaced. now apply clean_parts in H.
Qed.

Lemma normalize_space_idem (s : str) :
  _normalize_space (_normalize_space s) = _normalize_space s.
Proof. apply normalize_space_fixed, normalize_space_clean. Qed.

Lemma normalize_space_len (s : str) : len (_normalize_space s) <= len s.
Proof.
  unfold _normalize_space, len.
  pose proof (sub_ws_length false (strip s)). pose proof (strip_length s).
  lia.
Qed.

Lemma strip_len (s : str) : len (strip s) <= len s.
Proof. unfold len. pose proof (strip_length s). lia. Qed.

(** ** Slices and searches *)

Lemma slice_from_0 (t : str) (k : Z) :
  slice t 0 k = firstn (Z.to_nat (clamp_index (len t) k)) t.
Proof.
  unfold slice. pose proof (len_nonneg t).
  replace (clamp_index (len t) 0) with 0
    by (unfold clamp_index; simpl; lia).
  rewrite Z.sub_0_r. reflexivity.
Qed.

Lemma slice_len (t : str) (a b : Z) :
  0 <= a <= b -> len (slice t a b) <= b - a.
Proof.
  intros H. unfold slice, len. rewrite length_firstn.
  unfold clamp_index.
  destruct (Z.ltb_spec a 0); destruct (Z.ltb_spec b 0); lia.
Qed.

Lemma slice_from_0_len (t : str) (k : Z) : 0 <= k -> len (slice t 0 k) <= k.
Proof. intros H. pose proof (slice_len t 0 k). lia. Qed.

Lemma startswith_nth (s sub : str) :
  startswith s sub = true ->
  forall j c, nth_error sub j = Some c -> nth_error s j = Some c.
Proof.
  revert s. induction sub as [|a sub IH]; intros s H j c Hj.
  - destruct j; discriminate.
  - destruct s as [|d s]; [discriminate|].
    simpl in H. apply andb_true_iff in H. destruct H as [H1 H2].
    apply N.eqb_eq in H1. subst d.
    destruct j; simpl in *; auto.
Qed.

Lemma startswith_length (s sub : str) :
  startswith s sub = true -> (length sub <= length s)%nat.
Proof.
  revert s. induction sub as [|a sub IH]; intros s H; simpl; [lia|].
  destruct s as [|d s]; [discriminate|].
  simpl in H. apply andb_true_iff in H. destruct H as [_ H2].
  specialize (IH _ H2). simpl. lia.
Qed.

Lemma startswith_one (s : str) (c : char) :
  hd_error s = Some c -> startswith s [c] = true.
Proof.
  destruct s as [|d s]; simpl; intros H; inversion H.
  rewrite N.eqb_refl. now destruct s.
Qed.

(** [rfind_at] returns [-1] or the index of an occurrence. *)
Lemma rfind_at_spec (s sub : str) (i : Z) :
  0 <= i ->
  rfind_at s sub i = -1 \/
  exists k : nat, rfind_at s sub i = i + Z.of_nat k
                  /\ startswith (skipn k s) sub = true
                  /\ (k <= length s)%nat.
Proof.
  revert i. induction s as [|c s IH]; intros i Hi.
  - simpl. destruct sub; simpl; auto.
    right. exists 0%nat. simpl. split; [lia | split; [reflexivity | lia]].
  - cbn [rfind_at].
    destruct (IH (i + 1)) as [E | (k & E & Hk & Hl)]; [lia| |]; rewrite E.
    + change (0 <=? -1) with false. cbv iota.
      destruct (startswith (c :: s) sub) eqn:Es; auto.
      right. exists 0%nat. split; [simpl; lia | split; [exact Es | lia]].
    + replace (0 <=? i + 1 + Z.of_nat k) with true
        by (symmetry; apply Z.leb_le; lia).
      right. exists (S k). split; [lia | split; [exact Hk | simpl; lia]].
Qed.

(** [rfind_at] is at least the index of any occurrence. *)
Lemma rfind_at_complete (s sub : str) (i : Z) (k : nat) :
  0 <= i -> (k <= length s)%nat -> startswith (skipn k s) sub = true ->
  i + Z.of_nat k <= rfind_at s sub i.
Proof.
  revert i k. induction s as [|c s IH]; intros i k Hi Hk H.
  - simpl in Hk. assert (k = 0%nat) by lia. subst k. simpl in H.
    simpl. rewrite H. lia.
  - cbn [rfind_at]. destruct k as [|k].
    + change (skipn 0 (c :: s)) with (c :: s) in H.
      destruct (rfind_at_spec s sub (i + 1)) as [E | (j & E & _)];
        [lia| |]; rewrite E.
      * change (0 <=? -1) with false. cbv iota. rewrite H. lia.
      * replace (0 <=? i + 1 + Z.of_nat j) with true
          by (symmetry; apply Z.leb_le; lia).
        lia.
    + simpl in H, Hk.
      assert (Hr : i + 1 + Z.of_nat k <= rfind_at s sub (i + 1))
        by (apply IH; auto; lia).
      replace (0 <=? rfind_at s sub (i + 1)) with true
        by (symmetry; apply Z.leb_le; lia).
      lia.
Qed.

Lemma rfind_spec (s sub : str) :
  rfind s sub = -1 \/
  exists k : nat, rfind s sub = Z.of_nat k
                  /\ startswith (skipn k s) sub = true
                  /\ (k + length sub <= length s)%nat.
Proof.
  unfold rfind.
  destruct (rfind_at_spec s sub 0) as [E | (k & E & Hk & Hl)]; [lia|auto|].
  right. exists k. repeat split; auto.
  apply startswith_length in Hk. rewrite length_skipn in Hk. lia.
Qed.

(** The loop over the sentence ends finds a punctuation followed by a space
    inside the window. *)
Lemma sentence_cut_spec (window : str) (ws cut : Z) (puncts : list str) :
  sentence_cut window ws puncts = Some cut ->
  exists (punct : str) (k : nat),
    In punct puncts /\ cut = ws + Z.of_nat k + 1
    /\ startswith (skipn k window) punct = true
    /\ (k + length punct <= length window)%nat.
Proof.
  induction puncts as [|p rest IH]; simpl; [discriminate|].
  destruct (rfind_spec window p) as [E | (k & E & Hk & Hl)]; rewrite E.
  - simpl. intros H. destruct (IH H) as (q & k & Hin & ?).
    exists q, k. auto.
  - destruct (Z.eqb_spec (Z.of_nat k) (-1)); [lia|]. simpl.
    intros H. inversion H. exists p, k. auto.
Qed.

Lemma sentence_punct_shape (punct : str) :
  In punct sentence_puncts -> exists p, punct = [p; space].
Proof.
  unfold sentence_puncts. simpl.
  intros [H | [H | [H | [H | []]]]]; subst punct; eexists; reflexivity.
Qed.

Lemma rfind_in_spec (t sub : str) (stop : Z) :
  0 <= stop ->
  rfind_in t sub 0 stop = -1 \/
  exists k : nat,
    rfind_in t sub 0 stop = Z.of_nat k
    /\ startswith (skipn k (firstn (Z.to_nat (Z.min stop (len t))) t)) sub
       = true
    /\ Z.of_nat k + len sub <= Z.min stop (len t).
Proof.
  intros Hs. unfold rfind_in. cbv zeta.
  replace (clamp_index (len t) stop) with (Z.min stop (len t))
    by (unfold clamp_index; destruct (Z.ltb_spec stop 0); lia).
  change (0 <? 0) with false. cbv iota. rewrite Z.sub_0_r.
  change (skipn (Z.to_nat 0) t) with t.
  destruct (Z.ltb_spec (Z.min stop (len t)) (len sub)); auto.
  destruct (rfind_spec (firstn (Z.to_nat (Z.min stop (len t))) t) sub)
    as [E | (k & E & Hk & Hl)]; rewrite E; auto.
  destruct (Z.ltb_spec (Z.of_nat k) 0); [lia|].
  right. exists k. split; [lia | split; [exact Hk|]].
  rewrite length_firstn in Hl. unfold len in *. lia.
Qed.

Lemma rfind_in_complete (t sub : str) (stop : Z) (k : nat) :
  0 <= stop ->
  Z.of_nat k + len sub <= Z.min stop (len t) ->
  startswith (skipn k (firstn (Z.to_nat (Z.min stop (len t))) t)) sub = true ->
  Z.of_nat k <= rfind_in t sub 0 stop.
Proof.
  intros Hs Hk H. unfold rfind_in. cbv zeta.
  replace (clamp_index (len t) stop) with (Z.min stop (len t))
    by (unfold clamp_index; destruct (Z.ltb_spec stop 0); lia).
  change (0 <? 0) with false. cbv iota. rewrite Z.sub_0_r.
  change (skipn (Z.to_nat 0) t) with t.
  pose proof (len_nonneg sub).
  destruct (Z.ltb_spec (Z.min stop (len t)) (len sub)); [lia|].
  assert (Hr : 0 + Z.of_nat k
               <= rfind (firstn (Z.to_nat (Z.min stop (len t))) t) sub).
  { unfold rfind. apply rfind_at_complete; auto; [lia|].
    rewrite length_firstn. unfold len in *. lia. }
  destruct (Z.ltb_spec
              (rfind (firstn (Z.to_nat (Z.min stop (len t))) t) sub) 0); lia.
Qed.

(** ** Prefixes of clean strings *)

Lemma no_trailing_before_space (a rest : str) :
  single_spaced (a ++ space :: rest) = true -> no_trailing_ws a = true.
Proof.
  induction a as [|c a IH]; auto.
  intros H. simpl in H. apply andb_true_iff in H. destruct H as [H1 H2].
  destruct a as [|d a].
  - simpl in *. destruct (isspace c); auto.
    apply andb_true_iff in H1. destruct H1 as [_ H1]. discriminate.
  - rewrite no_trailing_cons by discriminate. auto.
Qed.

Lemma clean_before_space (a rest : str) :
  clean (a ++ space :: rest) = true -> clean a = true.
Proof.
  intros H. apply clean_parts in H. destruct H as (Hl & _ & Hs).
  apply clean_parts. repeat split.
  - eapply no_leading_app_l; eauto.
  - eapply no_trailing_before_space; eauto.
  - eapply single_spaced_app_l; eauto.
Qed.

(** Cutting a clean string just before one of its spaces. *)
Lemma cut_before_space (t : str) (k : nat) :
  clean t = true -> nth_error t k = Some space ->
  strip (firstn k t) = firstn k t
  /\ t = firstn k t ++ space :: skipn (S k) t
  /\ clean (firstn k t) = true
  /\ firstn k t <> [].
Proof.
  intros Hc Hn.
  pose proof (firstn_skipn_middle _ _ Hn) as Ht. symmetry in Ht.
  assert (Hca : clean (firstn k t) = true).
  { rewrite Ht in Hc. eapply clean_before_space; eauto. }
  repeat split; auto.
  - now apply strip_clean.
  - intros E. rewrite E in Ht. rewrite Ht in Hc.
    apply clean_parts in Hc. destruct Hc as (Hl & _). discriminate.
Qed.

Lemma clean_strip_prefix (t : str) (n : nat) :
  clean t = true -> clean (strip (firstn n t)) = true.
Proof.
  intros H. apply clean_parts in H. destruct H as (Hl & _ & Hs).
  rewrite <- (firstn_skipn n t) in Hl, Hs.
  apply clean_strip.
  - eapply no_leading_app_l; eauto.
  - eapply single_spaced_app_l; eauto.
Qed.

Lemma boundary_not_mid_word (t r : str) :
  cut_at_boundary t r -> ~ mid_word_cut t r.
Proof.
  intros [rest Ht] (a & c & d & rest' & _ & Ht' & _ & Hd).
  rewrite Ht in Ht'. apply app_inv_head in Ht'. congruence.
Qed.

(** ** [_trim_to_word_boundary] *)

(** In range, trimming only normalizes the white space. *)
Lemma trim_in_range (text : str) (max_len : Z) :
  len (_normalize_space text) <= max_len ->
  _trim_to_word_boundary text max_len = _normalize_space text.
Proof.
  intros H. unfold _trim_to_word_boundary. cbv zeta.
  destruct (Z.leb_spec (len (_normalize_space text)) max_len); auto. lia.
Qed.

(** The result is the normalized text, or a stripped prefix of it. *)
Lemma trim_shape (text : str) (max_len : Z) :
  _trim_to_word_boundary text max_len = _normalize_space text \/
  exists k, _trim_to_word_boundary text max_len
            = strip (slice (_normalize_space text) 0 k).
Proof.
  unfold _trim_to_word_boundary. cbv zeta.
  destruct (len (_normalize_space text) <=? max_len); auto.
  right.
  destruct (sentence_cut _ _ _) as [cut|]; [now exists cut|].
  destruct (rfind_in _ _ _ _ <=? 0); eauto.
Qed.

Lemma trim_clean (text : str) (max_len : Z) :
  clean (_trim_to_word_boundary text max_len) = true.
Proof.
  destruct (trim_shape text max_len) as [E | [k E]]; rewrite E.
  - apply normalize_space_clean.
  - rewrite slice_from_0. apply clean_strip_prefix, normalize_space_clean.
Qed.

Lemma trim_fixed (text : str) (max_len : Z) :
  clean text = true -> len text <= max_len ->
  _trim_to_word_boundary text max_len = text.
Proof.
  intros Hc Hl. rewrite trim_in_range; rewrite normalize_space_fixed; auto.
Qed.

Lemma trim_len (text : str) (max_len : Z) :
  0 <= max_len -> len (_trim_to_word_boundary text max_len) <= max_len.
Proof.
  intros Hm. unfold _trim_to_word_boundary. cbv zeta.
  set (t := _normalize_space text).
  destruct (Z.leb_spec (len t) max_len) as [Hle | Hgt]; auto.
  destruct (sentence_cut _ _ _) as [cut|] eqn:Ecut.
  - apply sentence_cut_spec in Ecut.
    destruct Ecut as (punct & k & Hin & Hcut & _ & Hk).
    destruct (sentence_punct_shape _ Hin) as [p Hp]. subst punct.
    pose proof (slice_len t (Z.max 0 (max_len - 60)) max_len) as Hw.
    unfold len in Hw at 1. simpl in Hk.
    pose proof (strip_len (slice t 0 cut)).
    pose proof (slice_from_0_len t cut). lia.
  - destruct (rfind_in_spec t (lit " ") (max_len + 1)) as [E | (k & E & _ & Hk)];
      [lia| |]; rewrite E.
    + simpl.
      pose proof (strip_len (slice t 0 max_len)).
      pose proof (slice_from_0_len t max_len). lia.
    + change (len (lit " ")) with 1 in Hk.
      pose proof (strip_len (slice t 0 max_len)).
      pose proof (slice_from_0_len t max_len).
      pose proof (strip_len (slice t 0 (Z.of_nat k))).
      pose proof (slice_from_0_len t (Z.of_nat k)).
      destruct (Z.leb_spec (Z.of_nat k) 0); lia.
Qed.

Lemma nth_error_firstn_some (s : str) (m j : nat) (c : char) :
  nth_error (firstn m s) j = Some c -> (j < m)%nat /\ nth_error s j = Some c.
Proof.
  rewrite nth_error_firstn.
  destruct (PeanoNat.Nat.ltb_spec j m); [auto | discriminate].
Qed.

Lemma nth_error_lt (s : str) (j : nat) (c : char) :
  nth_error s j = Some c -> Z.of_nat j < len s.
Proof.
  intros H. assert (nth_error s j <> None) by congruence.
  apply nth_error_Some in H0. unfold len. lia.
Qed.

(** When the normalized text is too long and has a space at an index in
    [1, max_len], the result is the text cut just before one of its spaces. *)
Lemma trim_cut_position (text : str) (max_len i : Z) :
  max_len < len (_normalize_space text) ->
  1 <= i <= max_len ->
  nth_error (_normalize_space text) (Z.to_nat i) = Some space ->
  exists k : nat,
    nth_error (_normalize_space text) k = Some space
    /\ Z.of_nat k <= max_len
    /\ _trim_to_word_boundary text max_len
       = strip (firstn k (_normalize_space text)).
Proof.
  intros Hgt Hi Hsp. unfold _trim_to_word_boundary. cbv zeta.
  set (t := _normalize_space text) in *.
  destruct (Z.leb_spec (len t) max_len) as [Hle | _]; [lia|].
  destruct (sentence_cut _ _ _) as [cut|] eqn:Ecut.
  - apply sentence_cut_spec in Ecut.
    destruct Ecut as (punct & k & Hin & Hcut & Hk & _).
    destruct (sentence_punct_shape _ Hin) as [p Hp]. subst punct.
    pose proof (startswith_nth _ _ Hk 1%nat space eq_refl) as Hn.
    rewrite nth_error_skipn in Hn. unfold slice in Hn.
    set (ws := Z.max 0 (max_len - 60)) in *.
    replace (clamp_index (len t) ws) with ws in Hn
      by (unfold clamp_index; destruct (Z.ltb_spec ws 0); lia).
    replace (clamp_index (len t) max_len) with max_len in Hn
      by (unfold clamp_index; destruct (Z.ltb_spec max_len 0); lia).
    apply nth_error_firstn_some in Hn. destruct Hn as [Hlt Hn].
    rewrite nth_error_skipn in Hn.
    pose proof (nth_error_lt _ _ _ Hn) as Hb.
    exists (Z.to_nat ws + (k + 1))%nat. split; [exact Hn|]. split; [lia|].
    rewrite slice_from_0.
    replace (clamp_index (len t) cut) with cut
      by (unfold clamp_index; destruct (Z.ltb_spec cut 0); lia).
    do 2 f_equal. lia.
  - assert (Hmin : Z.min (max_len + 1) (len t) = max_len + 1) by lia.
    assert (Hge : Z.of_nat (Z.to_nat i)
                  <= rfind_in t (lit " ") 0 (max_len + 1)).
    { apply rfind_in_complete; [lia | change (len (lit " ")) with 1; lia |].
      rewrite Hmin. apply startswith_one.
      rewrite hd_error_skipn, nth_error_firstn.
      destruct (PeanoNat.Nat.ltb_spec (Z.to_nat i) (Z.to_nat (max_len + 1)));
        [exact Hsp | lia]. }
    destruct (rfind_in_spec t (lit " ") (max_len + 1))
      as [E | (k & E & Hk & Hb)]; [lia | lia |].
    rewrite E in *. rewrite Hmin in Hk, Hb.
    change (len (lit " ")) with 1 in Hb.
    pose proof (startswith_nth _ _ Hk 0%nat space eq_refl) as Hn.
    rewrite nth_error_skipn in Hn.
    apply nth_error_firstn_some in Hn. destruct Hn as [Hlt Hn].
    rewrite Nat.add_0_r in Hn.
    pose proof (nth_error_lt _ _ _ Hn) as Hlen.
    exists k. split; [exact Hn|]. split; [lia|].
    destruct (Z.leb_spec (Z.of_nat k) 0); [lia|].
    rewrite slice_from_0.
    replace (clamp_index (len t) (Z.of_nat k)) with (Z.of_nat k)
      by (unfold clamp_index; destruct (Z.ltb_spec (Z.of_nat k) 0); lia).
    now rewrite Nat2Z.id.
Qed.

(** ** [_extend_description] *)

Lemma extend_loop_clean (sfx : list str) (text : str) (min_len max_len : Z) :
  clean text = true ->
  match extend_loop text sfx min_len max_len with
  | inl r => clean r = true
  | inr r => clean r = true
  end.
Proof.
  revert text. induction sfx as [|suffix rest IH]; intros text Hc; simpl; auto.
  match goal with |- context [_normalize_space ?c] => set (cand := c) end.
  destruct (len (_normalize_space cand) >? max_len); [now apply IH|].
  destruct (len (_normalize_space cand) >=? min_len).
  - apply normalize_space_clean.
  - apply IH, normalize_space_clean.
Qed.

Lemma extend_loop_len (sfx : list str) (text : str) (min_len max_len : Z) :
  len text <= max_len ->
  match extend_loop text sfx min_len max_len with
  | inl r => len r <= max_len
  | inr r => len r <= max_len
  end.
Proof.
  revert text. induction sfx as [|suffix rest IH]; intros text Hl; simpl; auto.
  match goal with |- context [_normalize_space ?c] => set (cand := c) end.
  destruct (Z.gtb_spec (len (_normalize_space cand)) max_len); [now apply IH|].
  destruct (len (_normalize_space cand) >=? min_len); [lia|].
  apply IH. lia.
Qed.

Lemma extend_clean (text : str) (min_len max_len : Z) :
  clean (_extend_description text min_len max_len) = true.
Proof.
  unfold _extend_description. cbv zeta.
  destruct (len (_normalize_space text) >=? min_len).
  - apply trim_clean.
  - pose proof (extend_loop_clean suffixes (_normalize_space text)
                  min_len max_len (normalize_space_clean text)) as H.
    destruct (extend_loop _ _ _ _) as [r | r]; auto.
    destruct (len _ <=? max_len); auto. apply normalize_space_clean.
Qed.

Lemma extend_len (text : str) (min_len max_len : Z) :
  0 <= max_len -> min_len <= max_len ->
  len (_extend_description text min_len max_len) <= max_len.
Proof.
  intros H0 Hm. unfold _extend_description. cbv zeta.
  destruct (Z.geb_spec (len (_normalize_space text)) min_len).
  - now apply trim_len.
  - pose proof (extend_loop_len suffixes (_normalize_space text)
                  min_len max_len) as Hloop.
    destruct (extend_loop _ _ _ _) as [r | r]; [apply Hloop; lia|].
    destruct (Z.leb_spec (len (_normalize_space
                (strip (r ++ lit " " ++ extra)))) max_len); [lia|].
    apply Hloop. lia.
Qed.

(** In range, the extender only normalizes the white space. *)
Lemma extend_in_range (text : str) (min_len max_len : Z) :
  min_len <= len (_normalize_space text) <= max_len ->
  _extend_description text min_len max_len = _normalize_space text.
Proof.
  intros H. unfold _extend_description. cbv zeta.
  destruct (Z.geb_spec (len (_normalize_space text)) min_len); [|lia].
  apply trim_fixed; [apply normalize_space_clean | lia].
Qed.

(** ** The description branch of [fix_file] *)

Lemma fix_description_in_range (s : str) (desc_min desc_max : Z) :
  desc_min <= len (_normalize_space s) <= desc_max ->
  fix_file_description s desc_min desc_max = _normalize_space s.
Proof.
  intros H. unfold fix_file_description. cbv zeta.
  pose proof (normalize_space_len s) as Hn.
  assert (Ht : _trim_to_word_boundary s desc_max = _normalize_space s)
    by (apply trim_in_range; lia).
  destruct (Z.gtb_spec (len s) desc_max).
  - rewrite Ht.
    destruct (Z.ltb_spec (len (_normalize_space s)) desc_min); [lia|].
    apply trim_fixed; [apply normalize_space_clean | lia].
  - destruct (Z.ltb_spec (len s) desc_min); [lia|]. exact Ht.
Qed.

(** ** [_smart_title] *)

Section TitleFacts.

Variable lower : str -> str.

Lemma smart_title_clean (s : str) (min_len max_len : Z) :
  clean (_smart_title lower s min_len max_len) = true.
Proof.
  unfold _smart_title. cbv zeta.
  destruct (_ && _ && _); [reflexivity | apply trim_clean].
Qed.

Lemma smart_title_len (s : str) (min_len max_len : Z) :
  0 <= max_len -> len (_smart_title lower s min_len max_len) <= max_len.
Proof.
  intros H. unfold _smart_title. cbv zeta.
  destruct (_ && _ && _) eqn:E.
  - apply andb_true_iff in E. destruct E as [_ E]. now apply Z.leb_le.
  - now apply trim_len.
Qed.

Lemma smart_title_in_range (s : str) (min_len max_len : Z) :
  min_len <= len (_normalize_space s) <= max_len ->
  _smart_title lower s min_len max_len = _normalize_space s.
Proof.
  intros H. unfold _smart_title. cbv zeta.
  assert (E1 : expand_title lower (_normalize_space s) min_len max_len
               = _normalize_space s).
  { unfold expand_title.
    destruct (Z.ltb_spec (len (_normalize_space s)) min_len); [lia | auto]. }
  rewrite E1.
  assert (E2 : shorten_title lower (_normalize_space s) min_len max_len
               = _normalize_space s).
  { unfold shorten_title.
    destruct (Z.gtb_spec (len (_normalize_space s)) max_len); [lia | auto]. }
  rewrite E2.
  rewrite trim_fixed by (apply normalize_space_clean || lia).
  destruct (Z.ltb_spec (len (_normalize_space s)) min_len); [lia | auto].
Qed.

End TitleFacts.

(** ** ASCII titles: only the ASCII part of [str.lower] matters *)

Lemma is_ascii_app (a b : str) : is_ascii (a ++ b) = is_ascii a && is_ascii b.
Proof. apply forallb_app. Qed.

Lemma is_ascii_lstrip (s : str) : is_ascii s = true -> is_ascii (lstrip s) = true.
Proof.
  destruct (lstrip_suffix s) as [w Hw]. intros H. rewrite Hw in H.
  rewrite is_ascii_app in H. now apply andb_true_iff in H.
Qed.

Lemma is_ascii_rstrip (s : str) : is_ascii s = true -> is_ascii (rstrip s) = true.
Proof.
  destruct (rstrip_prefix s) as [w Hw]. intros H. rewrite Hw in H.
  rewrite is_ascii_app in H. now apply andb_true_iff in H.
Qed.

Lemma is_ascii_strip (s : str) : is_ascii s = true -> is_ascii (strip s) = true.
Proof. intros H. now apply is_ascii_rstrip, is_ascii_lstrip. Qed.

Lemma is_ascii_sub_ws (b : bool) (s : str) :
  is_ascii s = true -> is_ascii (sub_ws b s) = true.
Proof.
  revert b. induction s as [|c s IH]; intros b H; auto.
  simpl in H. apply andb_true_iff in H. destruct H as [H1 H2].
  simpl. destruct (isspace c); [destruct b|]; simpl; auto.
  rewrite H1. simpl. auto.
Qed.

Lemma is_ascii_normalize_space (s : str) :
  is_ascii s = true -> is_ascii (_normalize_space s) = true.
Proof. intros H. now apply is_ascii_sub_ws, is_ascii_strip. Qed.

Lemma is_ascii_re_split (s : str) :
  is_ascii s = true -> Forall (fun p => is_ascii p = true) (re_split s).
Proof.
  induction s as [|c s IH]; intros H.
  - repeat constructor.
  - simpl in H. apply andb_true_iff in H. destruct H as [H1 H2].
    specialize (IH H2). simpl. destruct (is_separator c).
    + constructor; auto.
    + destruct (re_split s) as [|p ps].
      * repeat constructor. simpl. now rewrite H1.
      * inversion IH; subst. constructor; auto. simpl. now rewrite H1.
Qed.

Lemma is_ascii_title_parts (s : str) :
  is_ascii s = true -> Forall (fun p => is_ascii p = true) (title_parts s).
Proof.
  intros H. unfold title_parts. apply Forall_map.
  apply is_ascii_re_split in H. rewrite Forall_forall in *.
  intros p Hp. apply filter_In in Hp. destruct Hp as [Hp _].
  apply is_ascii_strip. auto.
Qed.

Section LowerAscii.

Variable lower : str -> str.
Hypothesis lower_ascii : lowers_ascii lower.

Lemma find_brand_ascii (parts : list str) :
  Forall (fun p => is_ascii p = true) parts ->
  find_brand lower parts = find_brand ascii_lower parts.
Proof.
  induction 1 as [|p parts Hp _ IH]; simpl; auto.
  rewrite (lower_ascii _ Hp), IH. reflexivity.
Qed.

Lemma descriptor_key_ascii (p : str) :
  is_ascii p = true -> descriptor_key lower p = descriptor_key ascii_lower p.
Proof. intros Hp. unfold descriptor_key. now rewrite (lower_ascii _ Hp). Qed.

Lemma insert_by_key_ascii (p : str) (l : list str) :
  is_ascii p = true -> Forall (fun q => is_ascii q = true) l ->
  insert_by_key lower p l = insert_by_key ascii_lower p l.
Proof.
  intros Hp. induction 1 as [|q l Hq _ IH]; simpl; auto.
  rewrite (descriptor_key_ascii _ Hp), (descriptor_key_ascii _ Hq), IH.
  reflexivity.
Qed.

Lemma insert_by_key_Forall (P : str -> Prop) (low : str -> str)
  (p : str) (l : list str) :
  P p -> Forall P l -> Forall P (insert_by_key low p l).
Proof.
  intros Hp. induction 1 as [|q l Hq Hl IH]; simpl.
  - repeat constructor; auto.
  - destruct (key_le _ _); repeat constructor; auto.
Qed.

Lemma sorted_by_key_ascii (l : list str) :
  Forall (fun q => is_ascii q = true) l ->
  sorted_by_key lower l = sorted_by_key ascii_lower l
  /\ Forall (fun q => is_ascii q = true) (sorted_by_key ascii_lower l).
Proof.
  induction 1 as [|p l Hp _ [IH1 IH2]]; simpl; [split; auto|].
  rewrite IH1. split.
  - now apply insert_by_key_ascii.
  - now apply insert_by_key_Forall.
Qed.

Lemma expand_title_ascii (t : str) (min_len max_len : Z) :
  is_ascii t = true ->
  expand_title lower t min_len max_len
  = expand_title ascii_lower t min_len max_len
  /\ is_ascii (expand_title ascii_lower t min_len max_len) = true.
Proof.
  intros Ht. unfold expand_title.
  destruct (len t <? min_len); [|auto].
  rewrite (lower_ascii _ Ht).
  match goal with
  | |- context [len ?x <? min_len] => set (t1 := x)
  end.
  assert (Ht1 : is_ascii t1 = true).
  { subst t1. destruct (negb _); auto. destruct (is_empty t); auto.
    apply is_ascii_normalize_space. rewrite is_ascii_app, Ht. reflexivity. }
  destruct (len t1 <? min_len); [|auto].
  rewrite (lower_ascii _ Ht1). split; auto.
  destruct (len _ <=? max_len); auto.
  apply is_ascii_normalize_space. rewrite !is_ascii_app, Ht1.
  destruct (contains (ascii_lower t1) _); reflexivity.
Qed.

Lemma shorten_title_ascii (t : str) (min_len max_len : Z) :
  is_ascii t = true ->
  shorten_title lower t min_len max_len
  = shorten_title ascii_lower t min_len max_len.
Proof.
  intros Ht. unfold shorten_title. cbv zeta.
  destruct (len t >? max_len); auto.
  pose proof (is_ascii_title_parts _ Ht) as Hp.
  rewrite (find_brand_ascii _ Hp).
  match goal with
  | |- context [sorted_by_key lower ?d] =>
      assert (Hd : Forall (fun q => is_ascii q = true) d)
  end.
  { rewrite Forall_forall in *. intros q Hq.
    apply filter_In in Hq. destruct Hq as [Hq _]. auto. }
  destruct (sorted_by_key_ascii _ Hd) as [E _]. rewrite E. reflexivity.
Qed.

(** On an ASCII title, [_smart_title] does not depend on how [str.lower]
    treats other characters. *)
Lemma smart_title_ascii (t : str) (min_len max_len : Z) :
  is_ascii t = true ->
  _smart_title lower t min_len max_len
  = _smart_title ascii_lower t min_len max_len.
Proof.
  intros Ht. unfold _smart_title. cbv zeta.
  apply is_ascii_normalize_space in Ht.
  destruct (expand_title_ascii _ min_len max_len Ht) as [E1 H1].
  rewrite E1, (shorten_title_ascii _ min_len max_len H1). reflexivity.
Qed.

End LowerAscii.

Lemma ascii_lower_lowers_ascii : lowers_ascii ascii_lower.
Proof. intros s _. reflexivity. Qed.

Lemma single_spaced_no_ws_run (r : str) :
  single_spaced r = true -> no_ws_run r.
Proof.
  induction r as [|a r IH]; intros Hs k c d Hc Hd Hw.
  - destruct k; discriminate.
  - simpl in Hs. apply andb_true_iff in Hs. destruct Hs as [H1 H2].
    destruct k as [|k].
    + simpl in Hc, Hd. inversion Hc; subst a. rewrite Hw in H1.
      apply andb_true_iff in H1. destruct H1 as [_ H1].
      destruct r as [|e r]; [discriminate|]. simpl in Hd, H1.
      inversion Hd; subst e. now apply negb_true_iff.
    + simpl in Hc. apply (IH H2 k c d); auto.
Qed.

Lemma clean_whitespace_normalized (r : str) :
  clean r = true -> whitespace_normalized r.
Proof.
  intros H. split; [now apply normalize_space_fixed|].
  apply clean_parts in H. destruct H as (Hl & Ht & Hs).
  repeat split; auto. now apply single_spaced_no_ws_run.
Qed.

(** Evaluation of a closed statement. *)
Ltac by_eval := vm_compute; repeat split; (reflexivity || discriminate).

Lemma find_brand_in (lower : str -> str) (parts : list str) (p : str) :
  find_brand lower parts = Some p -> In p parts.
Proof.
  induction parts as [|q parts IH]; simpl; [discriminate|].
  destruct (_ && _); [intros H; inversion H; now left | auto].
Qed.

(** ** The functions on dynamically typed values *)

Import Dyn.

Lemma bind_ok (A B : Type) (a : A) (f : A -> result B) :
  bind (Ok a) f = f a.
Proof. reflexivity. Qed.

Lemma py_le_int (a b : Z) : py_le (VInt a) (VInt b) = Ok (a <=? b).
Proof. reflexivity. Qed.

Lemma py_lt_int (a b : Z) : py_lt (VInt a) (VInt b) = Ok (a <? b).
Proof. reflexivity. Qed.

Lemma py_ge_int (a b : Z) : py_ge (VInt a) (VInt b) = Ok (a >=? b).
Proof. reflexivity. Qed.

Lemma py_gt_int (a b : Z) : py_gt (VInt a) (VInt b) = Ok (a >? b).
Proof. reflexivity. Qed.

Lemma py_max_int (a b : Z) : py_max (VInt a) (VInt b) = Ok (VInt (Z.max a b)).
Proof.
  unfold py_max. rewrite py_gt_int, bind_ok.
  destruct (Z.gtb_spec b a); do 2 f_equal; lia.
Qed.

Lemma py_len_str (s : str) : py_len (VStr s) = Ok (VInt (len s)).
Proof. reflexivity. Qed.

Lemma py_strip_str (s : str) : py_strip (VStr s) = Ok (VStr (strip s)).
Proof. reflexivity. Qed.

Lemma py_add_int (a b : Z) : py_add (VInt a) (VInt b) = Ok (VInt (a + b)).
Proof. reflexivity. Qed.

Lemma py_add_str (a b : str) : py_add (VStr a) (VStr b) = Ok (VStr (a ++ b)).
Proof. reflexivity. Qed.

Lemma py_sub_int (a b : Z) : py_sub (VInt a) (VInt b) = Ok (VInt (a - b)).
Proof. reflexivity. Qed.

Lemma py_slice_int (s : str) (a b : Z) :
  py_slice (VStr s) (VInt a) (VInt b) = Ok (VStr (slice s a b)).
Proof. reflexivity. Qed.

Lemma py_slice_to (s : str) (b : Z) :
  py_slice (VStr s) VNone (VInt b) = Ok (VStr (slice s 0 b)).
Proof. reflexivity. Qed.

Lemma py_rfind_str (s p : str) :
  py_rfind (VStr s) (VStr p) = Ok (VInt (rfind s p)).
Proof. reflexivity. Qed.

Lemma py_rfind_in_int (s p : str) (a b : Z) :
  py_rfind_in (VStr s) (VStr p) (VInt a) (VInt b)
  = Ok (VInt (rfind_in s p a b)).
Proof. reflexivity. Qed.

Lemma py_contains_str (n h : str) :
  py_contains (VStr n) (VStr h) = Ok (contains h n).
Proof. reflexivity. Qed.

Lemma py_ne_int (a b : Z) : py_ne (VInt a) (VInt b) = negb (a =? b).
Proof. reflexivity. Qed.

Lemma py_normalize_space_str (s : str) :
  py_normalize_space (VStr s) = Ok (VStr (_normalize_space s)).
Proof. unfold py_normalize_space, py_or. destruct s; reflexivity. Qed.

Ltac dyn :=
  repeat progress
    (cbn [bind];
     rewrite ?py_normalize_space_str, ?py_len_str, ?py_strip_str,
       ?py_le_int, ?py_lt_int, ?py_ge_int, ?py_gt_int, ?py_max_int,
       ?py_add_int, ?py_add_str, ?py_sub_int, ?py_slice_int, ?py_slice_to,
       ?py_rfind_str, ?py_rfind_in_int, ?py_contains_str, ?py_ne_int).

Lemma py_sentence_loop_str (t w : str) (ws : Z) (puncts : list str) :
  py_sentence_loop (VStr t) (VStr w) (VInt ws) (map VStr puncts)
  = Ok match sentence_cut w ws puncts with
       | Some cut => Some (VStr (strip (slice t 0 cut)))
       | None => None
       end.
Proof.
  induction puncts as [|p rest IH]; [reflexivity|].
  cbn [map py_sentence_loop sentence_cut]. dyn.
  destruct (negb (rfind w p =? -1)); [|exact IH]. dyn. reflexivity.
Qed.

Lemma py_trim_str (s : str) (m : Z) :
  py_trim_to_word_boundary (VStr s) (VInt m)
  = Ok (VStr (_trim_to_word_boundary s m)).
Proof.
  unfold py_trim_to_word_boundary, _trim_to_word_boundary. cbv zeta. dyn.
  destruct (len (_normalize_space s) <=? m); [reflexivity|]. dyn.
  rewrite py_sentence_loop_str. dyn.
  destruct (sentence_cut _ _ _); [reflexivity|]. dyn.
  destruct (_ <=? 0); dyn; reflexivity.
Qed.

Lemma py_extend_loop_str (sfx : list str) (t : str) (a b : Z) :
  py_extend_loop (VStr t) (map VStr sfx) (VInt a) (VInt b)
  = Ok match extend_loop t sfx a b with
       | inl r => inl (VStr r)
       | inr r => inr (VStr r)
       end.
Proof.
  revert t. induction sfx as [|suffix rest IH]; intros t; [reflexivity|].
  cbn [map py_extend_loop extend_loop]. cbv zeta.
  assert (E : (if truthy (VStr t)
               then x <- py_add (VStr t) (VStr (lit " ")) ;;
                    y <- py_add x (VStr suffix) ;; py_strip y
               else Ok (VStr suffix))
              = Ok (VStr match t with
                         | [] => suffix
                         | _ :: _ => strip (t ++ lit " " ++ suffix)
                         end)).
  { destruct t; [reflexivity|]. cbn [truthy is_empty negb]. dyn.
    now rewrite <- app_assoc. }
  rewrite E. dyn.
  destruct (_ >? b); [apply IH|]. dyn.
  destruct (_ >=? a); [reflexivity | apply IH].
Qed.

Lemma py_extend_str (s : str) (a b : Z) :
  py_extend_description (VStr s) (VInt a) (VInt b)
  = Ok (VStr (_extend_description s a b)).
Proof.
  unfold py_extend_description, _extend_description. cbv zeta. dyn.
  destruct (_ >=? a); [apply py_trim_str|].
  rewrite py_extend_loop_str. dyn.
  destruct (extend_loop _ _ _ _) as [r | r]; [reflexivity|]. dyn.
  rewrite <- app_assoc. destruct (_ <=? b); reflexivity.
Qed.

Section DynTitleFacts.

Variable lower : str -> str.

Lemma py_lower_str (s : str) : py_lower lower (VStr s) = Ok (VStr (lower s)).
Proof. reflexivity. Qed.

Lemma py_expand_str (t : str) (a b : Z) :
  py_expand_title lower (VStr t) (VInt a) (VInt b)
  = Ok (VStr (expand_title lower t a b)).
Proof.
  unfold py_expand_title, expand_title. cbv zeta. dyn.
  destruct (len t <? a); [|reflexivity].
  rewrite py_lower_str. dyn.
  assert (E : (if negb (contains (lower t) (lit "midwest flip"))
               then if truthy (VStr t)
                    then Ok (VStr (_normalize_space
                                     (py_format (VStr t)
                                      ++ lit " | Midwest Flip LLC")))
                    else Ok (VStr brand_name)
               else Ok (VStr t))
              = Ok (VStr (if negb (contains (lower t) (lit "midwest flip"))
                          then if is_empty t then brand_name
                               else _normalize_space
                                      (t ++ lit " | Midwest Flip LLC")
                          else t))).
  { destruct (negb _); [|reflexivity].
    destruct t; reflexivity. }
  rewrite E. dyn.
  match goal with |- context [len ?x <? a] => set (t1 := x) end.
  destruct (len t1 <? a); [|reflexivity].
  rewrite (py_lower_str t1). dyn.
  destruct (negb (contains (lower t1) (lit "detroit")));
    cbn [py_format]; dyn; destruct (_ <=? b); reflexivity.
Qed.

Lemma py_parts_str (pieces : list str) :
  py_parts (map VStr pieces)
  = Ok (map VStr
          (map strip
             (filter (fun p => negb (is_empty (strip p))) pieces))).
Proof.
  induction pieces as [|p rest IH]; [reflexivity|].
  cbn [map py_parts filter]. dyn. cbn [truthy].
  destruct (negb (is_empty (strip p))); [|exact IH].
  dyn. rewrite IH. reflexivity.
Qed.

Lemma py_find_brand_str (parts : list str) :
  py_find_brand lower (map VStr parts)
  = Ok match find_brand lower parts with
       | Some p => VStr p
       | None => VNone
       end.
Proof.
  induction parts as [|p rest IH]; [reflexivity|].
  cbn [map py_find_brand find_brand]. rewrite py_lower_str. dyn.
  destruct (contains (lower p) (lit "midwest")); cbn [andb].
  - dyn.
    destruct (contains (lower p) (lit "flip")); [reflexivity | exact IH].
  - dyn. exact IH.
Qed.

Lemma py_count_keywords_str (p : str) (ks : list str) :
  py_count_keywords lower (VStr p) (map VStr ks)
  = Ok (Z.of_nat (length (filter (fun k => contains (lower p) k) ks))).
Proof.
  induction ks as [|k ks IH]; [reflexivity|].
  cbn [map py_count_keywords filter]. rewrite py_lower_str. dyn.
  rewrite IH. dyn.
  destruct (contains (lower p) k); [|reflexivity].
  f_equal. cbn [length]. lia.
Qed.

(** A descriptor with its key, as [sorted] holds it. *)
Let keyed (p : str) : (value * value) * value :=
  ((VInt (fst (descriptor_key lower p)), VInt (snd (descriptor_key lower p))),
   VStr p).

Lemma py_keys_str (l : list str) :
  py_keys lower (map VStr l) = Ok (map keyed l).
Proof.
  induction l as [|p l IH]; [reflexivity|].
  cbn [map py_keys]. unfold py_key. rewrite py_count_keywords_str. dyn.
  rewrite IH. reflexivity.
Qed.

Lemma py_pair_lt_key (p q : str) :
  py_pair_lt (fst (keyed q)) (fst (keyed p))
  = Ok (negb (key_le (descriptor_key lower p) (descriptor_key lower q))).
Proof.
  unfold keyed, py_pair_lt, key_le. cbn [fst snd value_eqb].
  destruct (descriptor_key lower p) as [p1 p2].
  destruct (descriptor_key lower q) as [q1 q2]. cbn [fst snd].
  rewrite !py_lt_int. f_equal.
  destruct (Z.eqb_spec q1 p1); destruct (Z.eqb_spec q2 p2);
    destruct (Z.ltb_spec p1 q1); destruct (Z.eqb_spec p1 q1);
    destruct (Z.leb_spec p2 q2); destruct (Z.ltb_spec q2 p2);
    destruct (Z.ltb_spec q1 p1); cbn [andb orb negb]; auto; lia.
Qed.

Lemma py_insert_str (p : str) (l : list str) :
  py_insert (keyed p) (map keyed l)
  = Ok (map keyed (insert_by_key lower p l)).
Proof.
  induction l as [|q l IH]; [reflexivity|].
  cbn [map py_insert insert_by_key]. rewrite py_pair_lt_key. dyn.
  destruct (key_le _ _); cbn [negb]; [reflexivity|].
  rewrite IH. reflexivity.
Qed.

Lemma py_sort_str (l : list str) :
  py_sort (map keyed l) = Ok (map keyed (sorted_by_key lower l)).
Proof.
  induction l as [|p l IH]; [reflexivity|].
  cbn [map py_sort sorted_by_key]. rewrite IH. dyn. apply py_insert_str.
Qed.

Lemma py_sorted_str (l : list str) :
  py_sorted lower (map VStr l) = Ok (map VStr (sorted_by_key lower l)).
Proof.
  unfold py_sorted. rewrite py_keys_str. dyn. rewrite py_sort_str. dyn.
  now rewrite map_map.
Qed.

Lemma py_join_str (sep : str) (l : list str) :
  py_join sep (map VStr l) = Ok (VStr (join sep l)).
Proof.
  unfold py_join.
  replace (strs_of (map VStr l)) with (Some l); [reflexivity|].
  induction l as [|p l IH]; [reflexivity|]. cbn [map strs_of].
  now rewrite <- IH.
Qed.

Lemma py_pick_parts_str (descs cp : list str) (a b : Z) :
  py_pick_parts (map VStr cp) (map VStr descs) (VInt a) (VInt b)
  = Ok (map VStr (pick_parts cp descs a b)).
Proof.
  revert cp. induction descs as [|p rest IH]; intros cp; [reflexivity|].
  cbn [map py_pick_parts pick_parts]. cbv zeta.
  change [VStr p] with (map VStr [p]). rewrite <- map_app, py_join_str. dyn.
  destruct (_ <=? b); rewrite py_join_str; dyn;
    destruct (_ >=? a); try reflexivity; apply IH.
Qed.

Lemma filter_descriptors (parts : list str) (brand : str) :
  filter (fun p => py_ne p (VStr brand)) (map VStr parts)
  = map VStr (filter (fun p => negb (str_eqb p brand)) parts).
Proof.
  induction parts as [|p parts IH]; [reflexivity|].
  cbn [map filter]. rewrite IH.
  change (py_ne (VStr p) (VStr brand)) with (negb (str_eqb p brand)).
  now destruct (negb _).
Qed.

Lemma title_parts_nonempty (t p : str) : In p (title_parts t) -> p <> [].
Proof.
  unfold title_parts. intros H. apply in_map_iff in H.
  destruct H as (q & <- & Hq). apply filter_In in Hq. destruct Hq as [_ Hq].
  now destruct (strip q).
Qed.

Lemma py_shorten_str (t : str) (a b : Z) :
  py_shorten_title lower (VStr t) (VInt a) (VInt b)
  = Ok (VStr (shorten_title lower t a b)).
Proof.
  unfold py_shorten_title, shorten_title. cbv zeta. dyn.
  destruct (len t >? b); [|reflexivity].
  cbn [py_re_split]. dyn. rewrite py_parts_str. dyn.
  fold (title_parts t). rewrite py_find_brand_str. dyn.
  set (brand := match find_brand lower (title_parts t) with
                | Some p => p
                | None => brand_name
                end).
  assert (E : (if negb (truthy match find_brand lower (title_parts t) with
                               | Some p => VStr p
                               | None => VNone
                               end)
               then VStr brand_name
               else match find_brand lower (title_parts t) with
                    | Some p => VStr p
                    | None => VNone
                    end) = VStr brand).
  { subst brand.
    destruct (find_brand lower (title_parts t)) as [p|] eqn:Ef;
      [|reflexivity].
    apply find_brand_in, title_parts_nonempty in Ef.
    destruct p; [congruence | reflexivity]. }
  rewrite E, filter_descriptors, py_sorted_str. dyn.
  change [VStr brand] with (map VStr [brand]).
  rewrite py_pick_parts_str. dyn. rewrite py_join_str. dyn.
  destruct (_ >? b); [apply py_trim_str | reflexivity].
Qed.

Lemma py_smart_title_str (s : str) (a b : Z) :
  py_smart_title lower (VStr s) (VInt a) (VInt b)
  = Ok (VStr (_smart_title lower s a b)).
Proof.
  unfold py_smart_title, _smart_title. cbv zeta. dyn.
  rewrite py_expand_str. dyn. rewrite py_shorten_str. dyn.
  rewrite py_trim_str. dyn.
  destruct (_ <? a); cbn [andb]; [|reflexivity]. dyn.
  destruct (a <=? len fallback); cbn [andb]; dyn; [|reflexivity].
  destruct (len fallback <=? b); reflexivity.
Qed.

End DynTitleFacts.

(** * The claims *)

(** C1. For every string [s] and lengths [0 <= min_len <= max_len], the
    title normalizer and the description pipeline return at most [max_len]
    characters: [_smart_title], [_extend_description] alone, followed by
    [_trim_to_word_boundary], and the whole description branch of
    [fix_file]. *)
Theorem C1_length_at_most_max (lower : str -> str) (s : str)
  (min_len max_len : Z) :
  0 <= min_len -> min_len <= max_len ->
  len (_smart_title lower s min_len max_len) <= max_len
  /\ len (_extend_description s min_len max_len) <= max_len
  /\ len (_trim_to_word_boundary
            (_extend_description s min_len max_len) max_len) <= max_len
  /\ len (fix_file_description s min_len max_len) <= max_len.
Proof.
  intros H0 Hm. repeat split.
  - apply smart_title_len. lia.
  - apply extend_len; lia.
  - apply trim_len. lia.
  - unfold fix_file_description. cbv zeta. apply trim_len. lia.
Qed.

Lemma C1_length_at_most_max_witness :
  (0 <= 30 /\ 30 <= 60)
  /\ len (_smart_title ascii_lower kitchen_title 30 60) <= 60
  /\ len (_extend_description kitchen_title 30 60) <= 60
  /\ len (_trim_to_word_boundary
            (_extend_description kitchen_title 30 60) 60) <= 60
  /\ len (fix_file_description kitchen_title 30 60) <= 60.
Proof.
  split; [lia | apply (C1_length_at_most_max ascii_lower kitchen_title 30 60); lia].
Defined.

(** C2. When the whitespace-normalized form of [s] has its length in
    [min_len, max_len], normalization changes nothing more: [_smart_title]
    and the description pipeline return [_normalize_space s]. *)
Theorem C2_in_range_is_noop (lower : str -> str) (s : str)
  (min_len max_len : Z) :
  min_len <= len (_normalize_space s) <= max_len ->
  _smart_title lower s min_len max_len = _normalize_space s
  /\ _extend_description s min_len max_len = _normalize_space s
  /\ _trim_to_word_boundary (_extend_description s min_len max_len) max_len
     = _normalize_space s
  /\ fix_file_description s min_len max_len = _normalize_space s.
Proof.
  intros H. repeat split.
  - now apply smart_title_in_range.
  - now apply extend_in_range.
  - rewrite extend_in_range by assumption.
    apply trim_fixed; [apply normalize_space_clean | lia].
  - now apply fix_description_in_range.
Qed.

Lemma C2_in_range_is_noop_witness :
  (10 <= len (_normalize_space (lit "  Roof   repair in Detroit ")) <= 60)
  /\ _smart_title ascii_lower (lit "  Roof   repair in Detroit ") 10 60
     = _normalize_space (lit "  Roof   repair in Detroit ")
  /\ _extend_description (lit "  Roof   repair in Detroit ") 10 60
     = _normalize_space (lit "  Roof   repair in Detroit ")
  /\ _trim_to_word_boundary
       (_extend_description (lit "  Roof   repair in Detroit ") 10 60) 60
     = _normalize_space (lit "  Roof   repair in Detroit ")
  /\ fix_file_description (lit "  Roof   repair in Detroit ") 10 60
     = _normalize_space (lit "  Roof   repair in Detroit ").
Proof.
  split; [by_eval|].
  apply (C2_in_range_is_noop ascii_lower (lit "  Roof   repair in Detroit ")
           10 60).
  by_eval.
Defined.

(** C3 (as the code has it). Normalization is idempotent whenever the first
    application reaches [lo]: for [0 <= lo <= hi], if the result of
    [_smart_title] has at least [lo] characters, normalizing it again returns
    it unchanged, and the same holds for the description pipeline. *)
Theorem C3_idempotent_when_min_reached (lower : str -> str) (s : str)
  (lo hi : Z) :
  0 <= lo -> lo <= hi ->
  (lo <= len (_smart_title lower s lo hi) ->
   _smart_title lower (_smart_title lower s lo hi) lo hi
   = _smart_title lower s lo hi)
  /\ (lo <= len (fix_file_description s lo hi) ->
      fix_file_description (fix_file_description s lo hi) lo hi
      = fix_file_description s lo hi)
  /\ (lo <= len (_trim_to_word_boundary (_extend_description s lo hi) hi) ->
      _trim_to_word_boundary
        (_extend_description
           (_trim_to_word_boundary (_extend_description s lo hi) hi) lo hi) hi
      = _trim_to_word_boundary (_extend_description s lo hi) hi).
Proof.
  intros H0 Hle.
  assert (Hfix : forall r, clean r = true -> len r <= hi -> lo <= len r ->
                           lo <= len (_normalize_space r) <= hi).
  { intros r Hc Hh Hl. rewrite normalize_space_fixed; auto. }
  repeat split; intros Hlo.
  - pose proof (smart_title_clean lower s lo hi) as Hc.
    pose proof (smart_title_len lower s lo hi ltac:(lia)) as Hh.
    rewrite smart_title_in_range by auto.
    now apply normalize_space_fixed.
  - assert (Hc : clean (fix_file_description s lo hi) = true)
      by (unfold fix_file_description; cbv zeta; apply trim_clean).
    assert (Hh : len (fix_file_description s lo hi) <= hi)
      by (unfold fix_file_description; cbv zeta; apply trim_len; lia).
    rewrite fix_description_in_range by auto.
    now apply normalize_space_fixed.
  - set (r := _trim_to_word_boundary (_extend_description s lo hi) hi) in *.
    assert (Hc : clean r = true) by apply trim_clean.
    assert (Hh : len r <= hi) by (apply trim_len; lia).
    rewrite extend_in_range by auto.
    rewrite normalize_space_fixed by auto.
    apply trim_fixed; auto.
Qed.

Lemma C3_idempotent_when_min_reached_witness :
  (0 <= 30 /\ 30 <= 60
   /\ 30 <= len (_smart_title ascii_lower (lit "Roofing") 30 60)
   /\ 30 <= len (fix_file_description (lit "Roofing") 30 60)
   /\ 30 <= len (_trim_to_word_boundary
                   (_extend_description (lit "Roofing") 30 60) 60))
  /\ _smart_title ascii_lower
       (_smart_title ascii_lower (lit "Roofing") 30 60) 30 60
     = _smart_title ascii_lower (lit "Roofing") 30 60
  /\ fix_file_description (fix_file_description (lit "Roofing") 30 60) 30 60
     = fix_file_description (lit "Roofing") 30 60
  /\ _trim_to_word_boundary
       (_extend_description
          (_trim_to_word_boundary
             (_extend_description (lit "Roofing") 30 60) 60) 30 60) 60
     = _trim_to_word_boundary (_extend_description (lit "Roofing") 30 60) 60.
Proof.
  split; [by_eval|].
  destruct (C3_idempotent_when_min_reached ascii_lower (lit "Roofing") 30 60)
    as (H1 & H2 & H3); [lia | lia |].
  split; [apply H1; by_eval | split; [apply H2; by_eval | apply H3; by_eval]].
Defined.

(** C3, as stated, fails: with the window [100, 200] the title normalizer
    first returns a 30-character title and extends it again on the second
    pass, and with [100, 160] the description pipeline appends its suffixes
    once more. *)
Lemma C3_not_idempotent :
  100 <= 200
  /\ _smart_title ascii_lower (lit "a") 100 200
     = lit "a | Midwest Flip LLC | Detroit"
  /\ _smart_title ascii_lower (_smart_title ascii_lower (lit "a") 100 200)
       100 200
     = lit "a | Midwest Flip LLC | Detroit | Michigan"
  /\ _smart_title ascii_lower (_smart_title ascii_lower (lit "a") 100 200)
       100 200
     <> _smart_title ascii_lower (lit "a") 100 200
  /\ fix_file_description (fix_file_description [] 100 160) 100 160
     <> fix_file_description [] 100 160
  /\ _trim_to_word_boundary
       (_extend_description
          (_trim_to_word_boundary (_extend_description [] 100 160) 160)
          100 160) 160
     <> _trim_to_word_boundary (_extend_description [] 100 160) 160.
Proof. by_eval. Qed.

(** C4 (as the code has it). Truncation by [_trim_to_word_boundary] does not
    split a word when a word boundary is in range: if the normalized text is
    longer than [max_len] and has a space at an index [i] in [1, max_len],
    the result is a non-empty prefix of it that is followed by a space in the
    text (the end of a word or of a sentence), so it is never a cut in the
    middle of a word, and it has at most [max_len] characters.  On the
    example title [_trim_to_word_boundary] with the limit 20 returns
    "Kitchen Remodeling", a prefix of the title that ends at a space.
    [_smart_title] with the window [10, 20] does not truncate that title: it
    rebuilds it from the brand segment and returns "Midwest Flip LLC", which
    has 16 characters. *)
Theorem C4_truncation_at_word_boundary (lower : str -> str) (text : str)
  (max_len i : Z) :
  lowers_ascii lower ->
  max_len < len (_normalize_space text) ->
  1 <= i <= max_len ->
  nth_error (_normalize_space text) (Z.to_nat i) = Some space ->
  (cut_at_boundary (_normalize_space text)
     (_trim_to_word_boundary text max_len)
   /\ ~ mid_word_cut (_normalize_space text)
          (_trim_to_word_boundary text max_len)
   /\ _trim_to_word_boundary text max_len <> []
   /\ no_trailing_ws (_trim_to_word_boundary text max_len) = true
   /\ len (_trim_to_word_boundary text max_len) <= max_len)
  /\ _trim_to_word_boundary kitchen_title 20 = lit "Kitchen Remodeling"
  /\ cut_at_boundary kitchen_title (_trim_to_word_boundary kitchen_title 20)
  /\ _smart_title lower kitchen_title 10 20 = lit "Midwest Flip LLC"
  /\ len (_smart_title lower kitchen_title 10 20) = 16.
Proof.
  intros Hlow Hgt Hi Hsp. split.
  - destruct (trim_cut_position text max_len i Hgt Hi Hsp)
      as (k & Hk & Hkm & E).
    destruct (cut_before_space _ k (normalize_space_clean text) Hk)
      as (Hstrip & Hsplit & Hclean & Hne).
    rewrite E, Hstrip.
    assert (Hb : cut_at_boundary (_normalize_space text)
                   (firstn k (_normalize_space text)))
      by (eexists; exact Hsplit).
    repeat split; auto.
    + now apply boundary_not_mid_word.
    + apply clean_parts in Hclean. tauto.
    + unfold len. rewrite length_firstn. lia.
  - assert (E : _smart_title lower kitchen_title 10 20
                = lit "Midwest Flip LLC").
    { rewrite (smart_title_ascii lower Hlow) by reflexivity.
      vm_compute. reflexivity. }
    rewrite E. repeat split; try by_eval.
    exists (lit "Services for Metro Detroit Homes Today"). reflexivity.
Qed.

Lemma C4_truncation_at_word_boundary_witness :
  (lowers_ascii ascii_lower
   /\ 20 < len (_normalize_space kitchen_title)
   /\ 1 <= 18 <= 20
   /\ nth_error (_normalize_space kitchen_title) (Z.to_nat 18) = Some space)
  /\ (cut_at_boundary (_normalize_space kitchen_title)
        (_trim_to_word_boundary kitchen_title 20)
      /\ ~ mid_word_cut (_normalize_space kitchen_title)
             (_trim_to_word_boundary kitchen_title 20)
      /\ _trim_to_word_boundary kitchen_title 20 <> []
      /\ no_trailing_ws (_trim_to_word_boundary kitchen_title 20) = true
      /\ len (_trim_to_word_boundary kitchen_title 20) <= 20)
  /\ _trim_to_word_boundary kitchen_title 20 = lit "Kitchen Remodeling"
  /\ cut_at_boundary kitchen_title (_trim_to_word_boundary kitchen_title 20)
  /\ _smart_title ascii_lower kitchen_title 10 20 = lit "Midwest Flip LLC"
  /\ len (_smart_title ascii_lower kitchen_title 10 20) = 16.
Proof.
  split.
  - split; [intros s _; reflexivity | by_eval].
  - apply (C4_truncation_at_word_boundary ascii_lower kitchen_title 20 18).
    + intros s _. reflexivity.
    + by_eval.
    + lia.
    + reflexivity.
Defined.

(** C4, as stated, fails on its example: [_smart_title] with the window
    [10, 20] returns the brand "Midwest Flip LLC", which is no prefix of the
    title, so it does not end at a word boundary of the title. *)
Lemma C4_title_example_is_not_a_cut :
  _smart_title ascii_lower kitchen_title 10 20 = lit "Midwest Flip LLC"
  /\ ~ cut_at_boundary (_normalize_space kitchen_title)
         (_smart_title ascii_lower kitchen_title 10 20)
  /\ ~ (exists rest,
          _normalize_space kitchen_title
          = _smart_title ascii_lower kitchen_title 10 20 ++ rest).
Proof.
  split; [by_eval|]. split.
  - intros [rest H]. vm_compute in H. discriminate.
  - intros [rest H]. vm_compute in H. discriminate.
Qed.

(** C5 (as the code has it). For the empty input the extender takes the first
    suffix alone as its first candidate and stops as soon as [min_len] is
    reached: when the first suffix (32 characters) fits and reaches
    [min_len], that is [min_len <= 32 <= max_len], the result is exactly the
    first suffix (or the empty string when [min_len <= 0]) and holds neither
    the second suffix nor the padding sentence. *)
Theorem C5_empty_input_first_suffix_only (min_len max_len : Z) :
  min_len <= 32 -> 32 <= max_len ->
  _extend_description [] min_len max_len
  = (if min_len <=? 0 then [] else lit "Serving Detroit & Metro Detroit.")
  /\ contains (_extend_description [] min_len max_len)
       (lit "Call (313) 389-6324.") = false
  /\ contains (_extend_description [] min_len max_len) extra = false.
Proof.
  intros Hmin Hmax.
  assert (E : _extend_description [] min_len max_len
              = if min_len <=? 0 then []
                else lit "Serving Detroit & Metro Detroit.").
  { unfold _extend_description. cbv zeta.
    change (_normalize_space []) with (@nil char). change (len []) with 0.
    destruct (Z.geb_spec 0 min_len); destruct (Z.leb_spec min_len 0);
      try lia.
    - apply trim_fixed; [reflexivity | change (len []) with 0; lia].
    - unfold suffixes. cbn [extend_loop].
      replace (_normalize_space (lit "Serving Detroit & Metro Detroit."))
        with (lit "Serving Detroit & Metro Detroit.")
        by (vm_compute; reflexivity).
      change (len (lit "Serving Detroit & Metro Detroit.")) with 32.
      destruct (Z.gtb_spec 32 max_len); [lia|].
      destruct (Z.geb_spec 32 min_len); [reflexivity | lia]. }
  rewrite E. destruct (min_len <=? 0); repeat split; reflexivity.
Qed.

Lemma C5_empty_input_first_suffix_only_witness :
  (30 <= 32 /\ 32 <= 160)
  /\ _extend_description [] 30 160
     = (if 30 <=? 0 then [] else lit "Serving Detroit & Metro Detroit.")
  /\ contains (_extend_description [] 30 160)
       (lit "Call (313) 389-6324.") = false
  /\ contains (_extend_description [] 30 160) extra = false.
Proof.
  split; [lia | apply (C5_empty_input_first_suffix_only 30 160); lia].
Defined.

(** C5, as stated, fails: with the default window [70, 160] the empty
    description is extended with both suffixes and the padding sentence. *)
Lemma C5_empty_input_gets_further_suffixes :
  _extend_description [] 70 160
  = lit "Serving Detroit & Metro Detroit. Call (313) 389-6324. Licensed & insured."
  /\ contains (_extend_description [] 70 160) (lit "Call (313) 389-6324.")
     = true
  /\ contains (_extend_description [] 70 160) extra = true.
Proof. by_eval. Qed.

(** The exceptions of the model are reachable: a bound that is not an [int]
    makes the comparison with a length raise [TypeError], and a title that is
    an [int] has no [strip]; [None] as a text is read as the empty string. *)
Lemma dyn_raises_on_other_types :
  py_trim_to_word_boundary (VStr (lit "abc")) VNone = Raise TypeError
  /\ py_extend_description (VStr (lit "abc")) (VStr (lit "1")) (VInt 9)
     = Raise TypeError
  /\ py_smart_title ascii_lower (VInt 5) (VInt 30) (VInt 60)
     = Raise AttributeError
  /\ py_normalize_space VNone = Ok (VStr []).
Proof. repeat split; reflexivity. Qed.

(** C6. The normalizer is total and never raises: run on dynamically typed
    values, where every operation of the source checks its operands and may
    raise [TypeError] or [AttributeError], [_smart_title] and
    [_extend_description] return a [str] (the one the functions above
    compute) for every string, the empty one included, and all integers
    [min_len] and [max_len], negative ones and [min_len > max_len]
    included; no exception is raised. *)
Theorem C6_total (lower : str -> str) (s : str) (min_len max_len : Z) :
  py_smart_title lower (VStr s) (VInt min_len) (VInt max_len)
  = Ok (VStr (_smart_title lower s min_len max_len))
  /\ py_extend_description (VStr s) (VInt min_len) (VInt max_len)
     = Ok (VStr (_extend_description s min_len max_len))
  /\ (forall e,
        py_smart_title lower (VStr s) (VInt min_len) (VInt max_len)
        <> Raise e)
  /\ (forall e,
        py_extend_description (VStr s) (VInt min_len) (VInt max_len)
        <> Raise e).
Proof.
  rewrite py_smart_title_str, py_extend_str.
  repeat split; intros e; discriminate.
Qed.

(** C7. For the empty title and the window [30, 60], [_smart_title] returns
    the fallback "Midwest Flip LLC | Detroit Home Remodeling": a non-empty
    string of at most 60 characters. *)
Theorem C7_empty_title (lower : str -> str) :
  lowers_ascii lower ->
  _smart_title lower [] 30 60 = fallback
  /\ _smart_title lower [] 30 60 <> []
  /\ len (_smart_title lower [] 30 60) <= 60.
Proof.
  intros Hlow.
  rewrite (smart_title_ascii lower Hlow) by reflexivity.
  by_eval.
Qed.

Lemma C7_empty_title_witness :
  lowers_ascii ascii_lower
  /\ _smart_title ascii_lower [] 30 60 = fallback
  /\ _smart_title ascii_lower [] 30 60 <> []
  /\ len (_smart_title ascii_lower [] 30 60) <= 60.
Proof.
  split; [intros s _; reflexivity|].
  apply (C7_empty_title ascii_lower). intros s _. reflexivity.
Defined.

(** C8. [_smart_title("Roofing", 30, 60)] is
    "Roofing | Midwest Flip LLC | Detroit": between 30 and 60 characters,
    and it contains the brand "Midwest Flip LLC". *)
Theorem C8_roofing_title (lower : str -> str) :
  lowers_ascii lower ->
  _smart_title lower (lit "Roofing") 30 60
  = lit "Roofing | Midwest Flip LLC | Detroit"
  /\ 30 <= len (_smart_title lower (lit "Roofing") 30 60) <= 60
  /\ contains (_smart_title lower (lit "Roofing") 30 60)
       (lit "Midwest Flip LLC") = true.
Proof.
  intros Hlow.
  rewrite (smart_title_ascii lower Hlow) by reflexivity.
  by_eval.
Qed.

Lemma C8_roofing_title_witness :
  lowers_ascii ascii_lower
  /\ _smart_title ascii_lower (lit "Roofing") 30 60
     = lit "Roofing | Midwest Flip LLC | Detroit"
  /\ 30 <= len (_smart_title ascii_lower (lit "Roofing") 30 60) <= 60
  /\ contains (_smart_title ascii_lower (lit "Roofing") 30 60)
       (lit "Midwest Flip LLC") = true.
Proof.
  split; [intros s _; reflexivity|].
  apply (C8_roofing_title ascii_lower). intros s _. reflexivity.
Defined.

(** C9. [_extend_description("We fix roofs.", 70, 160)] is the input followed
    by a space and the first suffix of the list (and then by more sentences);
    its length lies in [70, 160]. *)
Theorem C9_description_example :
  _extend_description (lit "We fix roofs.") 70 160
  = lit "We fix roofs. Serving Detroit & Metro Detroit. Call (313) 389-6324. Licensed & insured."
  /\ (exists suffix,
        In suffix suffixes
        /\ startswith (_extend_description (lit "We fix roofs.") 70 160)
             (lit "We fix roofs." ++ lit " " ++ suffix) = true)
  /\ 70 <= len (_extend_description (lit "We fix roofs.") 70 160) <= 160.
Proof.
  split; [by_eval|]. split; [|by_eval].
  exists (lit "Serving Detroit & Metro Detroit."). split; [now left | by_eval].
Qed.

(** C10. Every string returned by [_smart_title], [_extend_description] and
    [_trim_to_word_boundary] is whitespace-normalized: it is a fixed point of
    [_normalize_space], has no whitespace at its ends and no two consecutive
    whitespace characters. *)
Theorem C10_results_whitespace_normalized (lower : str -> str) (s : str)
  (min_len max_len : Z) :
  whitespace_normalized (_smart_title lower s min_len max_len)
  /\ whitespace_normalized (_extend_description s min_len max_len)
  /\ whitespace_normalized (_trim_to_word_boundary s max_len).
Proof.
  split; [|split]; apply clean_whitespace_normalized.
  - apply smart_title_clean.
  - apply extend_clean.
  - apply trim_clean.
Qed.

(** * Further properties of [seo_fix_site.py] *)

(** ** Joining clean strings *)

Lemma no_trailing_app (a b : str) :
  b <> [] -> no_trailing_ws (a ++ b) = no_trailing_ws b.
Proof.
  intros Hb. induction a as [|c a IH]; auto.
  simpl app. rewrite no_trailing_cons; auto.
  destruct a; simpl; [exact Hb | discriminate].
Qed.

Lemma single_spaced_app (a b : str) :
  no_trailing_ws a = true -> single_spaced a = true ->
  single_spaced b = true -> single_spaced (a ++ b) = true.
Proof.
  intros Ht Ha Hb. induction a as [|c a IH]; auto.
  simpl in Ha. apply andb_true_iff in Ha. destruct Ha as [H1 H2].
  simpl. rewrite (IH (no_trailing_tail _ _ Ht) H2), andb_true_r.
  destruct (isspace c) eqn:E; auto.
  apply andb_true_iff in H1. destruct H1 as [H1 H3]. rewrite H1. simpl.
  destruct (no_trailing_ws_cons_inv _ _ E Ht) as [Hne _].
  destruct a; [congruence | exact H3].
Qed.

Lemma single_spaced_tail (a b : str) :
  single_spaced (a ++ b) = true -> single_spaced b = true.
Proof.
  induction a as [|c a IH]; auto. simpl. intros H.
  apply andb_true_iff in H. tauto.
Qed.

(** Two clean non-empty strings joined by [sep], a clean separator put
    between spaces or a single space, stay clean. *)
Lemma clean_app (a b : str) :
  clean a = true -> clean b = true -> a <> [] -> b <> [] ->
  clean (a ++ space :: b) = true.
Proof.
  intros Ha Hb Hna Hnb.
  apply clean_parts in Ha. destruct Ha as (Hla & Hta & Hsa).
  apply clean_parts in Hb. destruct Hb as (Hlb & Htb & Hsb).
  apply clean_parts. repeat split.
  - destruct a; [congruence | exact Hla].
  - rewrite no_trailing_app by discriminate.
    rewrite no_trailing_cons by exact Hnb. exact Htb.
  - apply single_spaced_app; auto. simpl. now rewrite Hlb, Hsb.
Qed.

Lemma normalize_space_append (text suffix : str) :
  clean text = true -> clean suffix = true -> text <> [] -> suffix <> [] ->
  _normalize_space (strip (text ++ lit " " ++ suffix))
  = text ++ lit " " ++ suffix.
Proof.
  intros Ht Hs Hnt Hns.
  pose proof (clean_app _ _ Ht Hs Hnt Hns) as Hc.
  change (text ++ lit " " ++ suffix) with (text ++ space :: suffix).
  rewrite (strip_clean _ Hc). now apply normalize_space_fixed.
Qed.

(** ** More on [_trim_to_word_boundary] *)

Lemma strip_prefix_of_clean (t : str) (n : nat) :
  clean t = true -> exists rest, t = strip (firstn n t) ++ rest.
Proof.
  intros Hc. apply clean_parts in Hc. destruct Hc as (Hl & _ & _).
  unfold strip.
  rewrite lstrip_id
    by (rewrite <- (firstn_skipn n t) in Hl; eapply no_leading_app_l; eauto).
  destruct (rstrip_prefix (firstn n t)) as [w Hw].
  exists (w ++ skipn n t). rewrite app_assoc, <- Hw.
  symmetry. apply firstn_skipn.
Qed.

Lemma contains_skipn (s sub : str) (k : nat) :
  startswith (skipn k s) sub = true -> contains s sub = true.
Proof.
  revert s. induction k as [|k IH]; intros s H.
  - change (skipn 0 s) with s in H. destruct s; simpl in *; rewrite H; auto.
  - destruct s as [|c s].
    + simpl in *. now rewrite H.
    + change (skipn (S k) (c :: s)) with (skipn k s) in H.
      cbn [contains]. rewrite (IH _ H). apply orb_true_r.
Qed.

Lemma contains_occurrence (s sub : str) :
  contains s sub = true ->
  exists k : nat, (k <= length s)%nat /\ startswith (skipn k s) sub = true.
Proof.
  induction s as [|c s IH]; intros H.
  - exists 0%nat. split; auto. simpl in *. now rewrite orb_false_r in H.
  - cbn [contains] in H. apply orb_true_iff in H. destruct H as [H | H].
    + exists 0%nat. split; [simpl; lia | exact H].
    + destruct (IH H) as (k & Hk & Hs). exists (S k). split; [simpl; lia|].
      exact Hs.
Qed.

Lemma rfind_none_iff (s sub : str) :
  rfind s sub = -1 <-> contains s sub = false.
Proof.
  split; intros H.
  - destruct (contains s sub) eqn:E; auto.
    destruct (contains_occurrence _ _ E) as (k & Hk & Hs).
    pose proof (rfind_at_complete s sub 0 k ltac:(lia) Hk Hs) as Hr.
    unfold rfind in H. lia.
  - destruct (rfind_spec s sub) as [E | (k & _ & Hk & _)]; auto.
    apply contains_skipn in Hk. congruence.
Qed.

Lemma sentence_cut_none (window : str) (ws : Z) (puncts : list str) :
  (forall punct, In punct puncts -> contains window punct = false) ->
  sentence_cut window ws puncts = None.
Proof.
  induction puncts as [|p rest IH]; intros H; auto.
  simpl. replace (rfind window p) with (-1)
    by (symmetry; apply rfind_none_iff, H; now left).
  simpl. apply IH. intros q Hq. apply H. now right.
Qed.

Lemma sentence_cut_some (window : str) (ws : Z) (puncts : list str) :
  (exists punct, In punct puncts /\ contains window punct = true) ->
  exists cut, sentence_cut window ws puncts = Some cut.
Proof.
  induction puncts as [|p rest IH]; intros (q & Hq & Hc); [destruct Hq|].
  simpl. destruct (Z.eqb_spec (rfind window p) (-1)) as [E | E]; simpl.
  - apply IH. destruct Hq as [-> | Hq]; [|eauto].
    apply rfind_none_iff in E. congruence.
  - eauto.
Qed.

Lemma clean_ws_is_space (t : str) (c : char) :
  single_spaced t = true -> In c t -> isspace c = true -> c = space.
Proof.
  induction t as [|d t IH]; intros Hs Hin Hw; [destruct Hin|].
  simpl in Hs. apply andb_true_iff in Hs. destruct Hs as [H1 H2].
  destruct Hin as [-> | Hin]; [|auto].
  rewrite Hw in H1. apply andb_true_iff in H1. destruct H1 as [H1 _].
  now apply N.eqb_eq in H1.
Qed.

Lemma no_ws_clean (t : str) :
  (forall c, In c t -> isspace c = false) -> clean t = true.
Proof.
  intros H. apply clean_parts. repeat split.
  - destruct t as [|c t]; auto. simpl. rewrite (H c); auto. now left.
  - induction t as [|c t IH]; auto. destruct t as [|d t].
    + simpl. rewrite (H c); auto. now left.
    + rewrite no_trailing_cons by discriminate. apply IH.
      intros e He. apply H. now right.
  - induction t as [|c t IH]; auto. simpl. rewrite (H c) by now left.
    apply IH. intros e He. apply H. now right.
Qed.

Lemma in_slice (t : str) (a b : Z) (c : char) : In c (slice t a b) -> In c t.
Proof.
  unfold slice. intros H.
  set (n := Z.to_nat (clamp_index (len t) b - clamp_index (len t) a)) in *.
  set (m := Z.to_nat (clamp_index (len t) a)) in *.
  rewrite <- (firstn_skipn m t). apply in_or_app. right.
  rewrite <- (firstn_skipn n (skipn m t)). apply in_or_app. now left.
Qed.

Lemma firstn_snoc (t : str) (n : nat) (p : char) :
  nth_error t n = Some p -> firstn (S n) t = firstn n t ++ [p].
Proof.
  revert t. induction n as [|n IH]; intros [|c t] H; try discriminate.
  - simpl in H. inversion H. reflexivity.
  - simpl in H. change (firstn (S (S n)) (c :: t)) with (c :: firstn (S n) t).
    rewrite (IH _ H). reflexivity.
Qed.

(** In a too long text, the window before the limit and the position of a
    character of it in the text. *)
Lemma window_nth (t : str) (max_len : Z) (j : nat) (c : char) :
  0 <= max_len < len t ->
  nth_error (slice t (Z.max 0 (max_len - 60)) max_len) j = Some c ->
  nth_error t (Z.to_nat (Z.max 0 (max_len - 60)) + j) = Some c
  /\ Z.max 0 (max_len - 60) + Z.of_nat j < max_len.
Proof.
  intros Hm H. unfold slice in H.
  set (ws := Z.max 0 (max_len - 60)) in *.
  replace (clamp_index (len t) ws) with ws in H
    by (unfold clamp_index; destruct (Z.ltb_spec ws 0); lia).
  replace (clamp_index (len t) max_len) with max_len in H
    by (unfold clamp_index; destruct (Z.ltb_spec max_len 0); lia).
  apply nth_error_firstn_some in H. destruct H as [Hlt H].
  rewrite nth_error_skipn in H. split; [exact H | lia].
Qed.

(** When no sentence end is found, the cut is at the last space at an index
    of at most [max_len], if there is one at a positive index. *)
Lemma trim_no_sentence (text : str) (max_len : Z) :
  max_len < len (_normalize_space text) ->
  sentence_cut (slice (_normalize_space text) (Z.max 0 (max_len - 60)) max_len)
    (Z.max 0 (max_len - 60)) sentence_puncts = None ->
  _trim_to_word_boundary text max_len
  = if rfind_in (_normalize_space text) (lit " ") 0 (max_len + 1) <=? 0
    then strip (slice (_normalize_space text) 0 max_len)
    else strip (slice (_normalize_space text) 0
                  (rfind_in (_normalize_space text) (lit " ") 0 (max_len + 1))).
Proof.
  intros Hgt Hnone. unfold _trim_to_word_boundary. cbv zeta.
  destruct (Z.leb_spec (len (_normalize_space text)) max_len); [lia|].
  now rewrite Hnone.
Qed.

(** X1. [_trim_to_word_boundary] only removes characters from the end: for
    every text and every integer [max_len] its result is a prefix of the
    whitespace-normalized text. *)
Theorem X1_trim_returns_prefix (text : str) (max_len : Z) :
  exists rest,
    _normalize_space text = _trim_to_word_boundary text max_len ++ rest.
Proof.
  destruct (trim_shape text max_len) as [E | [k E]]; rewrite E.
  - exists []. now rewrite app_nil_r.
  - rewrite slice_from_0.
    apply strip_prefix_of_clean, normalize_space_clean.
Qed.

(** X2. For [max_len >= 0], trimming is idempotent: trimming the result
    again with the same limit changes nothing. *)
Theorem X2_trim_idempotent (text : str) (max_len : Z) :
  0 <= max_len ->
  _trim_to_word_boundary (_trim_to_word_boundary text max_len) max_len
  = _trim_to_word_boundary text max_len.
Proof.
  intros H. apply trim_fixed; [apply trim_clean | now apply trim_len].
Qed.

Lemma X2_trim_idempotent_witness :
  0 <= 20
  /\ _trim_to_word_boundary (_trim_to_word_boundary kitchen_title 20) 20
     = _trim_to_word_boundary kitchen_title 20.
Proof.
  split; [lia | apply (X2_trim_idempotent kitchen_title 20); lia].
Defined.

(** X3. A single long token is cut hard: when the normalized text is longer
    than [max_len >= 0] and holds no space, the result is exactly its first
    [max_len] characters. *)
Theorem X3_trim_hard_truncation (text : str) (max_len : Z) :
  0 <= max_len < len (_normalize_space text) ->
  ~ In space (_normalize_space text) ->
  _trim_to_word_boundary text max_len
  = firstn (Z.to_nat max_len) (_normalize_space text)
  /\ len (_trim_to_word_boundary text max_len) = max_len.
Proof.
  intros Hm Hns.
  pose proof (normalize_space_clean text) as Hc.
  set (t := _normalize_space text) in *.
  assert (Hnone : sentence_cut (slice t (Z.max 0 (max_len - 60)) max_len)
                    (Z.max 0 (max_len - 60)) sentence_puncts = None).
  { apply sentence_cut_none. intros punct Hin.
    destruct (contains _ punct) eqn:E; auto. exfalso.
    destruct (contains_occurrence _ _ E) as (k & _ & Hk).
    destruct (sentence_punct_shape _ Hin) as [p ->].
    pose proof (startswith_nth _ _ Hk 1%nat space eq_refl) as Hn.
    rewrite nth_error_skipn in Hn. apply nth_error_In in Hn.
    apply Hns. eapply in_slice; eauto. }
  assert (Hr : rfind_in t (lit " ") 0 (max_len + 1) = -1).
  { destruct (rfind_in_spec t (lit " ") (max_len + 1))
      as [E | (k & _ & Hk & _)]; [lia | auto |].
    exfalso. pose proof (startswith_nth _ _ Hk 0%nat space eq_refl) as Hn.
    rewrite nth_error_skipn in Hn. apply nth_error_firstn_some in Hn.
    destruct Hn as [_ Hn]. apply nth_error_In in Hn. auto. }
  assert (E : _trim_to_word_boundary text max_len
              = firstn (Z.to_nat max_len) t).
  { rewrite trim_no_sentence by (fold t; auto; lia). fold t. rewrite Hr.
    change (-1 <=? 0) with true. cbv iota. rewrite slice_from_0.
    replace (clamp_index (len t) max_len) with max_len
      by (unfold clamp_index; destruct (Z.ltb_spec max_len 0); lia).
    apply strip_clean, no_ws_clean. intros c Hin.
    assert (Hct : In c t)
      by (rewrite <- (firstn_skipn (Z.to_nat max_len) t);
          apply in_or_app; now left).
    destruct (isspace c) eqn:Ew; auto. exfalso.
    apply clean_parts in Hc. destruct Hc as (_ & _ & Hs).
    rewrite (clean_ws_is_space t c Hs Hct Ew) in Hct. auto. }
  split; [exact E|]. rewrite E. unfold len in *. rewrite length_firstn. lia.
Qed.

Lemma X3_trim_hard_truncation_witness :
  (0 <= 5 < len (_normalize_space (lit "Michigan"))
   /\ ~ In space (_normalize_space (lit "Michigan")))
  /\ _trim_to_word_boundary (lit "Michigan") 5
     = firstn (Z.to_nat 5) (_normalize_space (lit "Michigan"))
  /\ len (_trim_to_word_boundary (lit "Michigan") 5) = 5.
Proof.
  assert (H : ~ In space (_normalize_space (lit "Michigan"))).
  { vm_compute. intuition discriminate. }
  split; [split; [by_eval | exact H]|].
  apply (X3_trim_hard_truncation (lit "Michigan") 5); [by_eval | exact H].
Defined.

(** X4. A sentence end is preferred: when the normalized text is longer than
    [max_len] and the 60 characters before the limit hold one of ". ", "! ",
    "? " or "; ", the result ends with that punctuation mark, is followed by
    a space in the text, and is shorter than [max_len]. *)
Theorem X4_trim_prefers_sentence_end (text : str) (max_len : Z) :
  0 <= max_len < len (_normalize_space text) ->
  (exists punct,
      In punct sentence_puncts
      /\ contains (slice (_normalize_space text)
                     (Z.max 0 (max_len - 60)) max_len) punct = true) ->
  exists a p,
    _trim_to_word_boundary text max_len = a ++ [p]
    /\ In [p; space] sentence_puncts
    /\ cut_at_boundary (_normalize_space text)
         (_trim_to_word_boundary text max_len)
    /\ len (_trim_to_word_boundary text max_len) < max_len.
Proof.
  intros Hm Hex.
  pose proof (normalize_space_clean text) as Hc.
  unfold _trim_to_word_boundary. cbv zeta.
  set (t := _normalize_space text) in *.
  destruct (Z.leb_spec (len t) max_len); [lia|].
  destruct (sentence_cut_some _ (Z.max 0 (max_len - 60)) _ Hex) as [cut Ecut].
  rewrite Ecut. apply sentence_cut_spec in Ecut.
  destruct Ecut as (punct & k & Hin & Hcut & Hk & _).
  destruct (sentence_punct_shape _ Hin) as [p ->].
  pose proof (startswith_nth _ _ Hk 0%nat p eq_refl) as Hp.
  pose proof (startswith_nth _ _ Hk 1%nat space eq_refl) as Hs.
  rewrite nth_error_skipn in Hp, Hs.
  apply window_nth in Hp; auto. apply window_nth in Hs; auto.
  destruct Hp as [Hp _]. destruct Hs as [Hs Hlt].
  set (ws := Z.max 0 (max_len - 60)) in *.
  rewrite Nat.add_0_r in Hp.
  replace (Z.to_nat ws + (k + 1))%nat with (S (Z.to_nat ws + k)) in Hs by lia.
  pose proof (nth_error_lt _ _ _ Hs) as Hlen.
  rewrite slice_from_0.
  replace (clamp_index (len t) cut) with cut
    by (unfold clamp_index; destruct (Z.ltb_spec cut 0); lia).
  replace (Z.to_nat cut) with (S (Z.to_nat ws + k)) by lia.
  destruct (cut_before_space t _ Hc Hs) as (Hstrip & Hsplit & _ & _).
  rewrite Hstrip.
  exists (firstn (Z.to_nat ws + k) t), p. repeat split.
  - now apply firstn_snoc.
  - exact Hin.
  - eexists. exact Hsplit.
  - unfold len in *. rewrite length_firstn. lia.
Qed.

Lemma X4_trim_prefers_sentence_end_witness :
  (0 <= 20 < len (_normalize_space (lit "We fix roofs. Call us today for a quote"))
   /\ exists punct,
        In punct sentence_puncts
        /\ contains (slice (_normalize_space
                              (lit "We fix roofs. Call us today for a quote"))
                       (Z.max 0 (20 - 60)) 20) punct = true)
  /\ exists a p,
       _trim_to_word_boundary (lit "We fix roofs. Call us today for a quote") 20
       = a ++ [p]
       /\ In [p; space] sentence_puncts
       /\ cut_at_boundary
            (_normalize_space (lit "We fix roofs. Call us today for a quote"))
            (_trim_to_word_boundary
               (lit "We fix roofs. Call us today for a quote") 20)
       /\ len (_trim_to_word_boundary
                 (lit "We fix roofs. Call us today for a quote") 20) < 20.
Proof.
  assert (H : exists punct,
             In punct sentence_puncts
             /\ contains (slice (_normalize_space
                              (lit "We fix roofs. Call us today for a quote"))
                            (Z.max 0 (20 - 60)) 20) punct = true).
  { exists (lit ". "). split; [now left | reflexivity]. }
  split; [split; [by_eval | exact H]|].
  apply (X4_trim_prefers_sentence_end
           (lit "We fix roofs. Call us today for a quote") 20);
    [by_eval | exact H].
Defined.

(** X5. Without a sentence end in the 60 characters before the limit, the
    cut is at the last word boundary: when the normalized text is longer
    than [max_len] and has a space at an index in [1, max_len], the result is
    the text up to its last space at an index of at most [max_len]. *)
Theorem X5_trim_cuts_at_last_space (text : str) (max_len i : Z) :
  max_len < len (_normalize_space text) ->
  1 <= i <= max_len ->
  nth_error (_normalize_space text) (Z.to_nat i) = Some space ->
  (forall punct,
      In punct sentence_puncts ->
      contains (slice (_normalize_space text)
                  (Z.max 0 (max_len - 60)) max_len) punct = false) ->
  exists k : nat,
    _trim_to_word_boundary text max_len = firstn k (_normalize_space text)
    /\ nth_error (_normalize_space text) k = Some space
    /\ Z.of_nat k <= max_len
    /\ forall j : nat,
         (k < j)%nat -> Z.of_nat j <= max_len ->
         nth_error (_normalize_space text) j <> Some space.
Proof.
  intros Hgt Hi Hsp Hno.
  pose proof (normalize_space_clean text) as Hc.
  rewrite trim_no_sentence by (auto using sentence_cut_none).
  set (t := _normalize_space text) in *.
  assert (Hmin : Z.min (max_len + 1) (len t) = max_len + 1) by lia.
  assert (Hocc : forall j : nat,
             Z.of_nat j <= max_len -> nth_error t j = Some space ->
             Z.of_nat j <= rfind_in t (lit " ") 0 (max_len + 1)).
  { intros j Hj Hn.
    apply rfind_in_complete; [lia | change (len (lit " ")) with 1; lia |].
    rewrite Hmin. apply startswith_one.
    rewrite hd_error_skipn, nth_error_firstn.
    destruct (PeanoNat.Nat.ltb_spec j (Z.to_nat (max_len + 1)));
      [exact Hn | lia]. }
  pose proof (Hocc (Z.to_nat i) ltac:(lia) Hsp) as Hge.
  destruct (rfind_in_spec t (lit " ") (max_len + 1))
    as [E | (k & E & Hk & Hb)]; [lia | lia |].
  rewrite E in *. rewrite Hmin in Hk, Hb.
  change (len (lit " ")) with 1 in Hb.
  pose proof (startswith_nth _ _ Hk 0%nat space eq_refl) as Hn.
  rewrite nth_error_skipn in Hn.
  apply nth_error_firstn_some in Hn. destruct Hn as [_ Hn].
  rewrite Nat.add_0_r in Hn.
  pose proof (nth_error_lt _ _ _ Hn) as Hlen.
  destruct (Z.leb_spec (Z.of_nat k) 0); [lia|].
  exists k. rewrite slice_from_0.
  replace (clamp_index (len t) (Z.of_nat k)) with (Z.of_nat k)
    by (unfold clamp_index; destruct (Z.ltb_spec (Z.of_nat k) 0); lia).
  rewrite Nat2Z.id.
  destruct (cut_before_space t k Hc Hn) as (Hstrip & _).
  repeat split; auto; [lia|].
  intros j Hj Hjm Hjs. specialize (Hocc j Hjm Hjs). lia.
Qed.

Lemma X5_trim_cuts_at_last_space_witness :
  (20 < len (_normalize_space kitchen_title)
   /\ 1 <= 7 <= 20
   /\ nth_error (_normalize_space kitchen_title) (Z.to_nat 7) = Some space
   /\ forall punct,
        In punct sentence_puncts ->
        contains (slice (_normalize_space kitchen_title)
                    (Z.max 0 (20 - 60)) 20) punct = false)
  /\ exists k : nat,
       _trim_to_word_boundary kitchen_title 20
       = firstn k (_normalize_space kitchen_title)
       /\ nth_error (_normalize_space kitchen_title) k = Some space
       /\ Z.of_nat k <= 20
       /\ forall j : nat,
            (k < j)%nat -> Z.of_nat j <= 20 ->
            nth_error (_normalize_space kitchen_title) j <> Some space.
Proof.
  assert (H : forall punct,
             In punct sentence_puncts ->
             contains (slice (_normalize_space kitchen_title)
                         (Z.max 0 (20 - 60)) 20) punct = false).
  { intros punct [<- | [<- | [<- | [<- | []]]]]; reflexivity. }
  split; [repeat split; try exact H; by_eval|].
  apply (X5_trim_cuts_at_last_space kitchen_title 20 7);
    [by_eval | lia | reflexivity | exact H].
Defined.

(** ** More on [_extend_description] and the description branch *)

Lemma fixed_clean (s : str) : _normalize_space s = s -> clean s = true.
Proof. intros H. rewrite <- H. apply normalize_space_clean. Qed.

(** One candidate of the extension loop. *)
Lemma candidate_spec (text suffix : str) :
  clean text = true -> clean suffix = true -> suffix <> [] ->
  _normalize_space
    match text with
    | [] => suffix
    | _ :: _ => strip (text ++ lit " " ++ suffix)
    end
  = match text with
    | [] => suffix
    | _ :: _ => text ++ lit " " ++ suffix
    end.
Proof.
  intros Ht Hs Hn. destruct text as [|c text].
  - now apply normalize_space_fixed.
  - apply normalize_space_append; auto. discriminate.
Qed.

Lemma candidate_clean (text suffix : str) :
  clean text = true -> clean suffix = true -> suffix <> [] ->
  clean match text with
        | [] => suffix
        | _ :: _ => text ++ lit " " ++ suffix
        end = true.
Proof.
  intros Ht Hs Hn. destruct text as [|c text]; auto.
  apply (clean_app (c :: text) suffix); auto. discriminate.
Qed.

Lemma extend_loop_prefix (sfx : list str) (text : str) (min_len max_len : Z) :
  clean text = true ->
  Forall (fun s => clean s = true /\ s <> []) sfx ->
  exists r rest,
    (extend_loop text sfx min_len max_len = inl r
     \/ extend_loop text sfx min_len max_len = inr r)
    /\ clean r = true /\ r = text ++ rest.
Proof.
  intros Hc Hall. revert text Hc.
  induction Hall as [|suffix sfx [Hs Hn] _ IH]; intros text Hc.
  - exists text, []. rewrite app_nil_r. simpl. auto.
  - cbn [extend_loop]. cbv zeta. rewrite (candidate_spec _ _ Hc Hs Hn).
    pose proof (candidate_clean _ _ Hc Hs Hn) as Hcc.
    set (cand := match text with
                 | [] => suffix
                 | _ :: _ => text ++ lit " " ++ suffix
                 end) in *.
    assert (Hp : exists rest, cand = text ++ rest).
    { subst cand. destruct text; eexists; reflexivity. }
    destruct (len cand >? max_len); [now apply IH|].
    destruct (len cand >=? min_len).
    + destruct Hp as [rest Hp]. exists cand, rest. auto.
    + destruct (IH cand Hcc) as (r & rest' & Hr & Hcr & Er).
      destruct Hp as [rest Hp]. exists r, (rest ++ rest').
      rewrite app_assoc, <- Hp. auto.
Qed.

Lemma suffixes_clean :
  Forall (fun s => clean s = true /\ s <> []) suffixes.
Proof. repeat constructor; discriminate. Qed.

(** X6. Extending never loses or alters the text: when the normalized text is
    shorter than [min_len], the result of [_extend_description] starts with
    the normalized text, whatever the window. *)
Theorem X6_extend_keeps_text (text : str) (min_len max_len : Z) :
  len (_normalize_space text) < min_len ->
  exists rest,
    _extend_description text min_len max_len = _normalize_space text ++ rest.
Proof.
  intros Hlt. unfold _extend_description. cbv zeta.
  destruct (Z.geb_spec (len (_normalize_space text)) min_len); [lia|].
  destruct (extend_loop_prefix suffixes (_normalize_space text) min_len max_len
              (normalize_space_clean text) suffixes_clean)
    as (r & rest & [E | E] & Hc & Hr); rewrite E.
  - eauto.
  - destruct (len _ <=? max_len); [|eauto].
    destruct r as [|c r].
    + destruct (_normalize_space text); [|discriminate].
      eexists. reflexivity.
    + rewrite normalize_space_append; auto; try discriminate.
      exists (rest ++ lit " " ++ extra). rewrite Hr.
      now rewrite <- app_assoc.
Qed.

Lemma X6_extend_keeps_text_witness :
  len (_normalize_space (lit "  We fix   roofs. ")) < 70
  /\ exists rest,
       _extend_description (lit "  We fix   roofs. ") 70 160
       = _normalize_space (lit "  We fix   roofs. ") ++ rest.
Proof.
  split; [by_eval|].
  apply (X6_extend_keeps_text (lit "  We fix   roofs. ") 70 160). by_eval.
Defined.

Lemma extend_reaches_window (t : str) (min_len max_len : Z) :
  clean t = true -> len t < min_len ->
  min_len <= 73 -> min_len + 32 <= max_len ->
  min_len <= len (_extend_description t min_len max_len) <= max_len
  /\ clean (_extend_description t min_len max_len) = true.
Proof.
  intros Hc Hlt H73 Hmax. split; [|apply extend_clean].
  unfold _extend_description. cbv zeta.
  rewrite (normalize_space_fixed _ Hc).
  destruct (Z.geb_spec (len t) min_len); [lia|].
  unfold suffixes. cbn [extend_loop]. cbv zeta.
  rewrite (candidate_spec t (lit "Serving Detroit & Metro Detroit.") Hc)
    by (reflexivity || discriminate).
  pose proof (candidate_clean t (lit "Serving Detroit & Metro Detroit.") Hc
                eq_refl ltac:(discriminate)) as Hc1.
  set (c1 := match t with
             | [] => lit "Serving Detroit & Metro Detroit."
             | _ :: _ => t ++ lit " " ++ lit "Serving Detroit & Metro Detroit."
             end) in *.
  assert (L1 : 32 <= len c1 <= len t + 33 /\ c1 <> []).
  { subst c1. destruct t; [split; [by_eval | discriminate]|].
    split; [|discriminate]. unfold len. rewrite !length_app.
    change (length (lit " ")) with 1%nat.
    change (length (lit "Serving Detroit & Metro Detroit.")) with 32%nat.
    lia. }
  destruct L1 as [L1 N1].
  destruct (Z.gtb_spec (len c1) max_len); [lia|].
  destruct (Z.geb_spec (len c1) min_len); [lia|].
  assert (E2 : forall s, clean s = true -> s <> [] ->
               _normalize_space
                 match c1 with
                 | [] => s
                 | _ :: _ => strip (c1 ++ lit " " ++ s)
                 end = c1 ++ lit " " ++ s).
  { intros s Hs Hn. rewrite (candidate_spec c1 s Hc1 Hs Hn).
    destruct c1; [congruence | reflexivity]. }
  rewrite E2 by (reflexivity || discriminate).
  set (c2 := c1 ++ lit " " ++ lit "Call (313) 389-6324.").
  assert (L2 : len c2 = len c1 + 21).
  { subst c2. unfold len. rewrite !length_app.
    change (length (lit " ")) with 1%nat.
    change (length (lit "Call (313) 389-6324.")) with 20%nat. lia. }
  assert (Hc2 : clean c2 = true)
    by (apply (clean_app c1 (lit "Call (313) 389-6324.")); auto; discriminate).
  destruct (Z.gtb_spec (len c2) max_len); [lia|].
  destruct (Z.geb_spec (len c2) min_len); [lia|].
  rewrite normalize_space_append; auto;
    try (subst c2; destruct c1; discriminate || congruence).
  assert (L3 : len (c2 ++ lit " " ++ extra) = len c2 + 20).
  { unfold len. rewrite !length_app.
    change (length (lit " ")) with 1%nat.
    change (length extra) with 19%nat. lia. }
  destruct (Z.leb_spec (len (c2 ++ lit " " ++ extra)) max_len); lia.
Qed.

(** X7. The extender reaches its window: when [min_len <= 73] and
    [min_len + 32 <= max_len] (as for the default 70 and 160), every text
    whose normalized form is shorter than [min_len] is extended to a length
    in [min_len, max_len]. *)
Theorem X7_extend_reaches_window (text : str) (min_len max_len : Z) :
  min_len <= 73 -> min_len + 32 <= max_len ->
  len (_normalize_space text) < min_len ->
  min_len <= len (_extend_description text min_len max_len) <= max_len.
Proof.
  intros H73 Hmax Hlt.
  replace (_extend_description text min_len max_len)
    with (_extend_description (_normalize_space text) min_len max_len)
    by (unfold _extend_description; now rewrite normalize_space_idem).
  apply extend_reaches_window; auto. apply normalize_space_clean.
Qed.

Lemma X7_extend_reaches_window_witness :
  (70 <= 73 /\ 70 + 32 <= 160 /\ len (_normalize_space (lit "Roofing")) < 70)
  /\ 70 <= len (_extend_description (lit "Roofing") 70 160) <= 160.
Proof.
  split; [by_eval|].
  apply (X7_extend_reaches_window (lit "Roofing") 70 160); by_eval.
Defined.

Lemma fix_description_reaches_window (s : str) (desc_min desc_max : Z) :
  clean s = true ->
  0 <= desc_min <= 73 -> desc_min + 32 <= desc_max ->
  desc_min <= len (fix_file_description s desc_min desc_max) <= desc_max
  /\ clean (fix_file_description s desc_min desc_max) = true.
Proof.
  intros Hc Hmin Hmax. unfold fix_file_description. cbv zeta.
  split; [|apply trim_clean].
  set (d := if len s >? desc_max
            then _trim_to_word_boundary s desc_max else s).
  assert (Hd : clean d = true /\ len d <= desc_max).
  { subst d. destruct (Z.gtb_spec (len s) desc_max).
    - split; [apply trim_clean | apply trim_len; lia].
    - split; [exact Hc | lia]. }
  destruct Hd as [Hcd Hld].
  destruct (Z.ltb_spec (len d) desc_min).
  - destruct (extend_reaches_window d desc_min desc_max Hcd)
      as [Hr Hcr]; auto; try lia.
    rewrite trim_fixed; auto; lia.
  - rewrite trim_fixed; auto; lia.
Qed.

(** X8. The description computed by [fix_file] reaches its window: for a
    whitespace-normalized [old_desc] and a window with
    [0 <= desc_min <= 73] and [desc_min + 32 <= desc_max] (as the default 70
    and 160), the value [d2] of lines 252-258, before it is compared with
    [old_desc] and written back, has a length in [desc_min, desc_max]. *)
Theorem X8_description_reaches_window (old_desc : str)
  (desc_min desc_max : Z) :
  _normalize_space old_desc = old_desc ->
  0 <= desc_min <= 73 -> desc_min + 32 <= desc_max ->
  desc_min <= len (fix_file_description old_desc desc_min desc_max)
           <= desc_max.
Proof.
  intros Hn Hmin Hmax.
  apply fix_description_reaches_window; auto. now apply fixed_clean.
Qed.

Lemma X8_description_reaches_window_witness :
  (_normalize_space (lit "We fix roofs.") = lit "We fix roofs."
   /\ 0 <= 70 <= 73 /\ 70 + 32 <= 160)
  /\ 70 <= len (fix_file_description (lit "We fix roofs.") 70 160) <= 160.
Proof.
  split; [by_eval|].
  apply (X8_description_reaches_window (lit "We fix roofs.") 70 160); by_eval.
Defined.

(** X9. For such a window the computation of [d2] (lines 252-258) is
    idempotent on whitespace-normalized descriptions: given its own result
    as [old_desc], it returns that result unchanged. *)
Theorem X9_description_idempotent (old_desc : str) (desc_min desc_max : Z) :
  _normalize_space old_desc = old_desc ->
  0 <= desc_min <= 73 -> desc_min + 32 <= desc_max ->
  fix_file_description
    (fix_file_description old_desc desc_min desc_max) desc_min desc_max
  = fix_file_description old_desc desc_min desc_max.
Proof.
  intros Hn Hmin Hmax.
  destruct (fix_description_reaches_window old_desc desc_min desc_max
              (fixed_clean _ Hn) Hmin Hmax) as [Hr Hc].
  rewrite fix_description_in_range;
    rewrite (normalize_space_fixed _ Hc); auto.
Qed.

Lemma X9_description_idempotent_witness :
  (_normalize_space (lit "We fix roofs.") = lit "We fix roofs."
   /\ 0 <= 70 <= 73 /\ 70 + 32 <= 160)
  /\ fix_file_description
       (fix_file_description (lit "We fix roofs.") 70 160) 70 160
     = fix_file_description (lit "We fix roofs.") 70 160.
Proof.
  split; [by_eval|].
  apply (X9_description_idempotent (lit "We fix roofs.") 70 160); by_eval.
Defined.

(** ** More on [_smart_title] *)

Lemma smart_title_reaches_window (lower : str -> str) (s : str)
  (min_len max_len : Z) :
  min_len <= 42 <= max_len ->
  min_len <= len (_smart_title lower s min_len max_len) <= max_len.
Proof.
  intros H. split; [|apply smart_title_len; lia].
  unfold _smart_title. cbv zeta.
  match goal with
  | |- context [len ?t <? min_len] => set (title := t)
  end.
  change (len fallback) with 42.
  replace (min_len <=? 42) with true by (symmetry; apply Z.leb_le; lia).
  replace (42 <=? max_len) with true by (symmetry; apply Z.leb_le; lia).
  rewrite !andb_true_r.
  destruct (Z.ltb_spec (len title) min_len); [|lia].
  change (len fallback) with 42. lia.
Qed.

(** X10. The title normalizer reaches its window whenever the worst-case
    fallback (42 characters) fits it: for [min_len <= 42 <= max_len], as for
    the default 30 and 60, every title comes out with a length in
    [min_len, max_len]. *)
Theorem X10_title_reaches_window (lower : str -> str) (title : str)
  (min_len max_len : Z) :
  min_len <= 42 <= max_len ->
  min_len <= len (_smart_title lower title min_len max_len) <= max_len.
Proof. apply smart_title_reaches_window. Qed.

Lemma X10_title_reaches_window_witness :
  30 <= 42 <= 60
  /\ 30 <= len (_smart_title ascii_lower kitchen_title 30 60) <= 60.
Proof.
  split; [lia | apply (X10_title_reaches_window ascii_lower kitchen_title 30 60); lia].
Defined.

(** X11. For such a window [_smart_title] is idempotent: the title written
    by one run of the script is left unchanged by the next. *)
Theorem X11_title_idempotent (lower : str -> str) (title : str)
  (min_len max_len : Z) :
  min_len <= 42 <= max_len ->
  _smart_title lower (_smart_title lower title min_len max_len)
    min_len max_len
  = _smart_title lower title min_len max_len.
Proof.
  intros H.
  pose proof (smart_title_reaches_window lower title min_len max_len H) as Hr.
  pose proof (smart_title_clean lower title min_len max_len) as Hc.
  rewrite smart_title_in_range; rewrite (normalize_space_fixed _ Hc); auto.
Qed.

Lemma X11_title_idempotent_witness :
  30 <= 42 <= 60
  /\ _smart_title ascii_lower (_smart_title ascii_lower kitchen_title 30 60)
       30 60
     = _smart_title ascii_lower kitchen_title 30 60.
Proof.
  split; [lia | apply (X11_title_idempotent ascii_lower kitchen_title 30 60); lia].
Defined.

(** ** The descriptors of an over-long title *)

Section Descriptors.

Variable lower : str -> str.

Lemma key_le_total (a b : Z * Z) : key_le a b = false -> key_le b a = true.
Proof.
  unfold key_le. destruct a as [a1 a2], b as [b1 b2]. simpl.
  destruct (Z.ltb_spec a1 b1); destruct (Z.eqb_spec a1 b1);
    destruct (Z.leb_spec a2 b2); simpl; try discriminate; intros _;
    destruct (Z.ltb_spec b1 a1); destruct (Z.eqb_spec b1 a1);
    destruct (Z.leb_spec b2 a2); simpl; auto; lia.
Qed.

Lemma insert_by_key_perm (p : str) (l : list str) :
  Permutation (p :: l) (insert_by_key lower p l).
Proof.
  induction l as [|q l IH]; simpl; auto.
  destruct (key_le _ _); auto.
  rewrite perm_swap. now constructor.
Qed.

Lemma sorted_by_key_perm (l : list str) :
  Permutation l (sorted_by_key lower l).
Proof.
  induction l as [|p l IH]; simpl; auto.
  rewrite <- insert_by_key_perm. now constructor.
Qed.

Lemma insert_by_key_sorted (p : str) (l : list str) :
  Sorted (key_order lower) l ->
  Sorted (key_order lower) (insert_by_key lower p l).
Proof.
  induction 1 as [|q l Hs IH Hd]; simpl.
  - repeat constructor.
  - destruct (key_le (descriptor_key lower p) (descriptor_key lower q)) eqn:E.
    + constructor; [now constructor | now constructor].
    + constructor; auto.
      destruct l as [|r l]; simpl.
      * constructor. now apply key_le_total.
      * destruct (key_le (descriptor_key lower p) (descriptor_key lower r));
          constructor; [now apply key_le_total | now inversion Hd].
Qed.

Lemma sorted_by_key_sorted (l : list str) :
  Sorted (key_order lower) (sorted_by_key lower l).
Proof.
  induction l as [|p l IH]; simpl; [constructor|].
  now apply insert_by_key_sorted.
Qed.

Lemma insert_by_key_stable (k : Z * Z) (p : str) (l : list str) :
  filter (has_key lower k) (insert_by_key lower p l)
  = filter (has_key lower k) (p :: l).
Proof.
  induction l as [|q l IH]; auto.
  cbn [insert_by_key].
  destruct (key_le (descriptor_key lower p) (descriptor_key lower q)) eqn:E;
    auto.
  cbn [filter] in *. rewrite IH.
  destruct (has_key lower k p) eqn:Hp; destruct (has_key lower k q) eqn:Hq;
    auto.
  exfalso. unfold has_key in Hp, Hq. unfold key_le in E.
  destruct (descriptor_key lower p) as [p1 p2].
  destruct (descriptor_key lower q) as [q1 q2]. simpl in *.
  destruct (Z.eqb_spec p1 (fst k)); destruct (Z.eqb_spec p2 (snd k));
    destruct (Z.eqb_spec q1 (fst k)); destruct (Z.eqb_spec q2 (snd k));
    try discriminate.
  destruct (Z.ltb_spec p1 q1); destruct (Z.eqb_spec p1 q1);
    destruct (Z.leb_spec p2 q2); simpl in E; try discriminate; lia.
Qed.

Lemma sorted_by_key_stable (k : Z * Z) (l : list str) :
  filter (has_key lower k) (sorted_by_key lower l)
  = filter (has_key lower k) l.
Proof.
  induction l as [|p l IH]; auto.
  cbn [sorted_by_key]. rewrite insert_by_key_stable.
  cbn [filter]. now rewrite IH.
Qed.

(** X12. The descriptors of an over-long title are only reordered by the
    sort (none is lost, added or repeated); they come out by decreasing
    number of keywords they hold, then by increasing length; and descriptors
    with the same key keep the order they have in the title. *)
Theorem X12_descriptors_sorted (descriptors : list str) :
  Permutation descriptors (sorted_by_key lower descriptors)
  /\ Sorted (key_order lower) (sorted_by_key lower descriptors)
  /\ forall k, filter (has_key lower k) (sorted_by_key lower descriptors)
               = filter (has_key lower k) descriptors.
Proof.
  split; [apply sorted_by_key_perm|].
  split; [apply sorted_by_key_sorted|].
  intros k. apply sorted_by_key_stable.
Qed.

End Descriptors.

(** ** Over-long titles are rebuilt from whole segments *)

Lemma pick_parts_spec (descs cp : list str) (min_len max_len : Z) :
  exists l,
    pick_parts cp descs min_len max_len = cp ++ l
    /\ (forall p, In p l -> In p descs)
    /\ (len (join (lit " | ") cp) <= max_len ->
        len (join (lit " | ") (cp ++ l)) <= max_len).
Proof.
  revert cp. induction descs as [|p descs IH]; intros cp.
  - exists []. rewrite app_nil_r. simpl. tauto.
  - cbn [pick_parts]. cbv zeta.
    set (cp' := if len (join (lit " | ") (cp ++ [p])) <=? max_len
                then cp ++ [p] else cp).
    assert (H : exists l0, cp' = cp ++ l0
                /\ (forall q, In q l0 -> q = p)
                /\ (len (join (lit " | ") cp) <= max_len ->
                    len (join (lit " | ") cp') <= max_len)).
    { subst cp'.
      destruct (Z.leb_spec (len (join (lit " | ") (cp ++ [p]))) max_len).
      - exists [p]. repeat split; auto. intros q [<- | []]. reflexivity.
      - exists []. rewrite app_nil_r. repeat split; auto. intros q []. }
    destruct H as (l0 & E0 & Hin0 & Hlen0).
    destruct (len (join (lit " | ") cp') >=? min_len).
    + exists l0. rewrite <- E0. repeat split; auto.
      intros q Hq. left. symmetry. auto.
    + destruct (IH cp') as (l & E & Hin & Hlen).
      exists (l0 ++ l). rewrite app_assoc, <- E0. repeat split; auto.
      intros q Hq. apply in_app_or in Hq. destruct Hq as [Hq | Hq].
      * left. symmetry. auto.
      * right. auto.
Qed.

Lemma re_split_head (s : str) :
  exists p ps rest, re_split s = p :: ps /\ s = p ++ rest.
Proof.
  induction s as [|c s (p & ps & rest & E & Hs)].
  - exists [], [], []. auto.
  - simpl. destruct (is_separator c).
    + exists [], (re_split s), (c :: s). auto.
    + rewrite E. exists (c :: p), ps, rest. simpl. now rewrite <- Hs.
Qed.

Lemma re_split_single_spaced (s : str) :
  single_spaced s = true ->
  Forall (fun p => single_spaced p = true) (re_split s).
Proof.
  induction s as [|c s IH]; intros H.
  - repeat constructor.
  - simpl in H. apply andb_true_iff in H. destruct H as [H1 H2].
    specialize (IH H2). simpl. destruct (is_separator c).
    + constructor; auto.
    + destruct (re_split_head s) as (p & ps & rest & E & Hs).
      rewrite E in *. inversion IH as [|? ? Hp Hps]. constructor; auto.
      simpl. rewrite Hp, andb_true_r.
      destruct (isspace c); auto.
      apply andb_true_iff in H1. destruct H1 as [H1 H5]. rewrite H1. simpl.
      rewrite Hs in H5. eapply no_leading_app_l; eauto.
Qed.

Lemma lstrip_idem (s : str) : lstrip (lstrip s) = lstrip s.
Proof. apply lstrip_id, no_leading_lstrip. Qed.

Lemma clean_strip_single_spaced (a : str) :
  single_spaced a = true -> clean (strip a) = true.
Proof.
  intros H.
  replace (strip a) with (strip (lstrip a))
    by (unfold strip; now rewrite lstrip_idem).
  apply clean_strip; [apply no_leading_lstrip|].
  destruct (lstrip_suffix a) as [w Hw]. rewrite Hw in H.
  eapply single_spaced_tail; eauto.
Qed.

Lemma title_parts_clean (t : str) :
  clean t = true ->
  Forall (fun p => clean p = true /\ p <> []) (title_parts t).
Proof.
  intros Hc. apply clean_parts in Hc. destruct Hc as (_ & _ & Hs).
  pose proof (re_split_single_spaced _ Hs) as Hall.
  unfold title_parts. rewrite Forall_forall in *.
  intros p Hp. apply in_map_iff in Hp. destruct Hp as (q & <- & Hq).
  apply filter_In in Hq. destruct Hq as [Hq Hne]. split.
  - apply clean_strip_single_spaced. auto.
  - destruct (strip q); [discriminate | discriminate].
Qed.

Lemma title_brand_clean (lower : str -> str) (t : str) :
  clean t = true ->
  clean (title_brand lower t) = true /\ title_brand lower t <> [].
Proof.
  intros Hc. unfold title_brand.
  destruct (find_brand lower (title_parts t)) as [p|] eqn:E.
  - pose proof (title_parts_clean _ Hc) as Hall.
    rewrite Forall_forall in Hall. apply Hall. eapply find_brand_in; eauto.
  - split; [reflexivity | discriminate].
Qed.

Lemma join_clean (parts : list str) :
  Forall (fun p => clean p = true /\ p <> []) parts -> parts <> [] ->
  clean (join (lit " | ") parts) = true /\ join (lit " | ") parts <> [].
Proof.
  induction 1 as [|p parts [Hp Hn] Hall IH]; intros Hne; [congruence|].
  destruct parts as [|q parts]; [simpl; auto|].
  destruct IH as [Hc Hj]; [discriminate|].
  change (join (lit " | ") (p :: q :: parts))
    with (p ++ space :: ([124%N] ++ space :: join (lit " | ") (q :: parts))).
  split; [|destruct p; [congruence | discriminate]].
  apply clean_app; auto; [|discriminate].
  apply clean_app; auto; discriminate.
Qed.

Lemma str_eqb_false (a b : str) : str_eqb a b = false -> a <> b.
Proof. unfold str_eqb. destruct (list_eq_dec N.eq_dec a b); congruence. Qed.

(** X13. An over-long title is rebuilt from whole segments, never cut: when
    the normalized title is longer than [max_len >= min_len] and its brand
    segment fits in [max_len], [_smart_title] returns either the fallback or
    the brand segment followed by other segments of the title (none of them
    the brand segment again), joined by " | ". *)
Theorem X13_long_title_rebuilt (lower : str -> str) (title : str)
  (min_len max_len : Z) :
  min_len <= max_len ->
  max_len < len (_normalize_space title) ->
  len (title_brand lower (_normalize_space title)) <= max_len ->
  _smart_title lower title min_len max_len = fallback
  \/ exists l,
       _smart_title lower title min_len max_len
       = join (lit " | ") (title_brand lower (_normalize_space title) :: l)
       /\ len (join (lit " | ")
                 (title_brand lower (_normalize_space title) :: l)) <= max_len
       /\ forall p, In p l ->
                    In p (title_parts (_normalize_space title))
                    /\ p <> title_brand lower (_normalize_space title).
Proof.
  intros Hmm Hgt Hb.
  pose proof (normalize_space_clean title) as Hc.
  unfold _smart_title. cbv zeta.
  set (t := _normalize_space title) in *.
  assert (E1 : expand_title lower t min_len max_len = t).
  { unfold expand_title. destruct (Z.ltb_spec (len t) min_len); [lia | auto]. }
  rewrite E1. unfold shorten_title. cbv zeta.
  destruct (Z.gtb_spec (len t) max_len); [|lia].
  fold (title_brand lower t). set (brand := title_brand lower t) in *.
  destruct (title_brand_clean lower t Hc) as [Hcb Hnb]. fold brand in Hcb, Hnb.
  set (descs := sorted_by_key lower
                  (filter (fun p => negb (str_eqb p brand)) (title_parts t))).
  destruct (pick_parts_spec descs [brand] min_len max_len)
    as (l & E & Hin & Hlen).
  rewrite E. change ([brand] ++ l) with (brand :: l) in *.
  specialize (Hlen Hb).
  assert (Hl : forall p, In p l -> In p (title_parts t) /\ p <> brand).
  { intros p Hp. apply Hin in Hp. subst descs.
    apply (Permutation_in _ (Permutation_sym (sorted_by_key_perm lower _)))
      in Hp.
    apply filter_In in Hp. destruct Hp as [Hp Hne]. split; auto.
    apply str_eqb_false. now apply negb_true_iff. }
  assert (Hj : clean (join (lit " | ") (brand :: l)) = true).
  { apply join_clean; [|discriminate]. constructor; auto.
    pose proof (title_parts_clean _ Hc) as Hall.
    rewrite Forall_forall in *. intros p Hp. apply Hall, Hl, Hp. }
  destruct (Z.gtb_spec (len (join (lit " | ") (brand :: l))) max_len); [lia|].
  rewrite trim_fixed by auto.
  destruct (_ && _ && _); [now left | right].
  exists l. auto.
Qed.

Lemma X13_long_title_rebuilt_witness :
  (10 <= 20
   /\ 20 < len (_normalize_space kitchen_title)
   /\ len (title_brand ascii_lower (_normalize_space kitchen_title)) <= 20)
  /\ (_smart_title ascii_lower kitchen_title 10 20 = fallback
      \/ exists l,
           _smart_title ascii_lower kitchen_title 10 20
           = join (lit " | ")
               (title_brand ascii_lower (_normalize_space kitchen_title) :: l)
           /\ len (join (lit " | ")
                     (title_brand ascii_lower (_normalize_space kitchen_title)
                      :: l)) <= 20
           /\ forall p, In p l ->
                        In p (title_parts (_normalize_space kitchen_title))
                        /\ p <> title_brand ascii_lower
                                  (_normalize_space kitchen_title)).
Proof.
  split; [by_eval|].
  apply (X13_long_title_rebuilt ascii_lower kitchen_title 10 20); by_eval.
Defined.

(** ** The list of files of [main] *)

Section DedupeFacts.

Variable path : Type.
Variable path_eq_dec : forall x y : path, {x = y} + {x <> y}.

Lemma dedupe_loop_acc (target seen files : list path) :
  dedupe_loop path path_eq_dec seen files target = files ++ dedupe_loop path path_eq_dec seen [] target.
Proof.
  revert seen files. induction target as [|f rest IH]; intros seen files.
  - simpl. now rewrite app_nil_r.
  - simpl. destruct (in_dec path_eq_dec f seen); auto.
    rewrite (IH (f :: seen) (files ++ [f])), (IH (f :: seen) [f]).
    now rewrite <- app_assoc.
Qed.

Lemma dedupe_loop_cons (f : path) (rest seen : list path) :
  dedupe_loop path path_eq_dec seen [] (f :: rest)
  = if in_dec path_eq_dec f seen then dedupe_loop path path_eq_dec seen [] rest
    else f :: dedupe_loop path path_eq_dec (f :: seen) [] rest.
Proof.
  simpl. destruct (in_dec path_eq_dec f seen); auto.
  now rewrite dedupe_loop_acc.
Qed.

Lemma dedupe_loop_in (target seen : list path) (x : path) :
  In x (dedupe_loop path path_eq_dec seen [] target) <-> In x target /\ ~ In x seen.
Proof.
  revert seen. induction target as [|f rest IH]; intros seen.
  - simpl. tauto.
  - rewrite dedupe_loop_cons. destruct (in_dec path_eq_dec f seen) as [Hf|Hf].
    + rewrite IH. simpl. split; [tauto|].
      intros [[-> | H] Hn]; [contradiction | tauto].
    + simpl. rewrite IH. simpl.
      destruct (path_eq_dec f x) as [-> | Hne]; [tauto|]. tauto.
Qed.

Lemma dedupe_loop_nodup (target seen : list path) :
  NoDup (dedupe_loop path path_eq_dec seen [] target).
Proof.
  revert seen. induction target as [|f rest IH]; intros seen.
  - constructor.
  - rewrite dedupe_loop_cons. destruct (in_dec path_eq_dec f seen); auto.
    constructor; auto. rewrite dedupe_loop_in. simpl. tauto.
Qed.

(** Only the members of [seen] matter. *)
Lemma dedupe_loop_seen_ext (target seen seen' : list path) :
  (forall x, In x seen <-> In x seen') ->
  dedupe_loop path path_eq_dec seen [] target = dedupe_loop path path_eq_dec seen' [] target.
Proof.
  revert seen seen'. induction target as [|f rest IH]; intros seen seen' H.
  - reflexivity.
  - rewrite !dedupe_loop_cons.
    destruct (in_dec path_eq_dec f seen) as [Hf|Hf];
      destruct (in_dec path_eq_dec f seen') as [Hf'|Hf'];
      try (apply H in Hf; contradiction);
      try (apply H in Hf'; contradiction); auto.
    f_equal. apply IH. intros x. simpl. rewrite H. tauto.
Qed.

Lemma dedupe_loop_snoc (target seen : list path) (x : path) :
  dedupe_loop path path_eq_dec seen [] (target ++ [x])
  = if in_dec path_eq_dec x (seen ++ target)
    then dedupe_loop path path_eq_dec seen [] target
    else dedupe_loop path path_eq_dec seen [] target ++ [x].
Proof.
  revert seen. induction target as [|f rest IH]; intros seen.
  - rewrite app_nil_r. simpl.
    destruct (in_dec path_eq_dec x seen); reflexivity.
  - change ((f :: rest) ++ [x]) with (f :: (rest ++ [x])).
    rewrite !dedupe_loop_cons.
    assert (Hiff : In x (seen ++ f :: rest) <-> In x ((f :: seen) ++ rest)).
    { rewrite !in_app_iff. simpl. tauto. }
    destruct (in_dec path_eq_dec f seen) as [Hf|Hf].
    + rewrite IH.
      destruct (in_dec path_eq_dec x (seen ++ rest)) as [H1|H1];
        destruct (in_dec path_eq_dec x (seen ++ f :: rest)) as [H2|H2]; auto;
        exfalso; rewrite in_app_iff in *; simpl in *.
      * tauto.
      * destruct H2 as [H2 | [-> | H2]]; tauto.
    + rewrite IH.
      destruct (in_dec path_eq_dec x ((f :: seen) ++ rest)) as [H1|H1];
        destruct (in_dec path_eq_dec x (seen ++ f :: rest)) as [H2|H2]; auto;
        tauto.
Qed.

Lemma dedupe_loop_fixed (target seen : list path) :
  NoDup target -> (forall x, In x target -> ~ In x seen) ->
  dedupe_loop path path_eq_dec seen [] target = target.
Proof.
  revert seen. induction target as [|f rest IH]; intros seen Hnd Hs; auto.
  rewrite dedupe_loop_cons. inversion Hnd; subst.
  destruct (in_dec path_eq_dec f seen) as [Hf|Hf].
  - exfalso. apply (Hs f); simpl; auto.
  - f_equal. apply IH; auto. intros x Hx [<- | Hin]; [contradiction|].
    apply (Hs x); simpl; auto.
Qed.

(** X14. The list of files of [main] has no duplicate and holds exactly the
    paths of [target_files], so every file of the report is fixed once; and
    removing the duplicates again changes nothing. *)
Theorem X14_dedupe_nodup_same_files (target_files : list path) :
  NoDup (dedupe path path_eq_dec target_files)
  /\ (forall f, In f (dedupe path path_eq_dec target_files)
                <-> In f target_files)
  /\ dedupe path path_eq_dec (dedupe path path_eq_dec target_files)
     = dedupe path path_eq_dec target_files.
Proof.
  split; [apply dedupe_loop_nodup|]. split.
  - intros f. unfold dedupe. rewrite dedupe_loop_in. simpl. tauto.
  - unfold dedupe. apply dedupe_loop_fixed; [apply dedupe_loop_nodup | auto].
Qed.

(** X15. The files keep the order of their first occurrence: a path added at
    the end of [target_files] is added at the end of the list when it is new
    and dropped when it was already there. *)
Theorem X15_dedupe_first_occurrences (target_files : list path) (f : path) :
  dedupe path path_eq_dec (target_files ++ [f])
  = if in_dec path_eq_dec f target_files then dedupe path path_eq_dec target_files
    else dedupe path path_eq_dec target_files ++ [f].
Proof. unfold dedupe. now rewrite dedupe_loop_snoc. Qed.

(** X16. A list of files without duplicates is left as it is. *)
Theorem X16_dedupe_fixed (target_files : list path) :
  NoDup target_files -> dedupe path path_eq_dec target_files = target_files.
Proof. intros H. unfold dedupe. apply dedupe_loop_fixed; auto. Qed.

End DedupeFacts.

Lemma X16_dedupe_fixed_witness :
  NoDup [lit "index.html"; lit "about.html"]
  /\ dedupe str (list_eq_dec N.eq_dec) [lit "index.html"; lit "about.html"]
     = [lit "index.html"; lit "about.html"].
Proof.
  assert (H : NoDup [lit "index.html"; lit "about.html"]).
  { repeat constructor; simpl; intuition discriminate. }
  split; [exact H | apply (X16_dedupe_fixed str (list_eq_dec N.eq_dec) _ H)].
Defined.

(** ** Escaping *)

Lemma replace_char_in (old : char) (new s : str) (c : char) :
  In c (replace_char old new s) -> In c new \/ (In c s /\ c <> old).
Proof.
  induction s as [|d s IH]; simpl; [tauto|].
  destruct (N.eqb_spec d old) as [-> | Hne].
  - intros H. apply in_app_or in H. tauto.
  - intros [<- | H]; [right; split; auto | tauto].
Qed.

Lemma replace_char_id (old : char) (new s : str) :
  ~ In old s -> replace_char old new s = s.
Proof.
  induction s as [|d s IH]; simpl; auto. intros H.
  destruct (N.eqb_spec d old) as [-> | Hne]; [tauto|].
  f_equal. tauto.
Qed.

Lemma not_in_replace_char (old : char) (new s : str) (c : char) :
  ~ In c new -> c = old \/ ~ In c s -> ~ In c (replace_char old new s).
Proof.
  intros Hn Hs H. apply replace_char_in in H. tauto.
Qed.

Ltac no_char :=
  repeat (apply not_in_replace_char;
          [vm_compute; intuition discriminate
          | first [left; reflexivity | right]]).

Lemma escape_no_markup (text : str) :
  (~ In 60%N (_escape_text text) /\ ~ In 62%N (_escape_text text))
  /\ (~ In 60%N (_escape_attr text) /\ ~ In 62%N (_escape_attr text)
      /\ ~ In 34%N (_escape_attr text) /\ ~ In 39%N (_escape_attr text)).
Proof.
  unfold _escape_text, _escape_attr, html_escape. cbv zeta iota.
  repeat split; no_char.
Qed.

(** X17. Escaped text holds no raw markup character: [_escape_text] returns
    a string without [<] and [>], and [_escape_attr] one without [<], [>],
    the double quote and the single quote, so neither can close the title
    element or the attribute it is spliced into. *)
Theorem X17_escape_no_markup (text : str) :
  (~ In 60%N (_escape_text text) /\ ~ In 62%N (_escape_text text))
  /\ (~ In 60%N (_escape_attr text) /\ ~ In 62%N (_escape_attr text)
      /\ ~ In 34%N (_escape_attr text) /\ ~ In 39%N (_escape_attr text)).
Proof. apply escape_no_markup. Qed.

(** X18. Text without [&], [<] and [>] is written as it is by
    [_escape_text]; without the two quotes either, by [_escape_attr] too. *)
Theorem X18_escape_plain_text (text : str) :
  ~ In 38%N text -> ~ In 60%N text -> ~ In 62%N text ->
  _escape_text text = text
  /\ (~ In 34%N text -> ~ In 39%N text -> _escape_attr text = text).
Proof.
  intros H1 H2 H3. unfold _escape_text, _escape_attr, html_escape.
  cbv zeta iota. rewrite !(replace_char_id _ _ text) by assumption.
  split; auto. intros H4 H5.
  now rewrite !(replace_char_id _ _ text) by assumption.
Qed.

Lemma X18_escape_plain_text_witness :
  (~ In 38%N (lit "Roofing | Midwest Flip LLC")
   /\ ~ In 60%N (lit "Roofing | Midwest Flip LLC")
   /\ ~ In 62%N (lit "Roofing | Midwest Flip LLC"))
  /\ _escape_text (lit "Roofing | Midwest Flip LLC")
     = lit "Roofing | Midwest Flip LLC"
  /\ (~ In 34%N (lit "Roofing | Midwest Flip LLC") ->
      ~ In 39%N (lit "Roofing | Midwest Flip LLC") ->
      _escape_attr (lit "Roofing | Midwest Flip LLC")
      = lit "Roofing | Midwest Flip LLC").
Proof.
  assert (H : forall c, In c [38%N; 60%N; 62%N] ->
                        ~ In c (lit "Roofing | Midwest Flip LLC")).
  { intros c [<- | [<- | [<- | []]]]; vm_compute; intuition discriminate. }
  split; [repeat split; apply H; simpl; auto|].
  apply (X18_escape_plain_text (lit "Roofing | Midwest Flip LLC"));
    apply H; simpl; auto.
Defined.

(** ** The title element *)

Section TitleReFacts.

Variable letter_eq : char -> char -> bool.

Lemma lit_at_firstn (pat s s' : str) :
  firstn (length pat) s = firstn (length pat) s' ->
  lit_at letter_eq pat s = lit_at letter_eq pat s'.
Proof.
  revert s s'. induction pat as [|p pat IH]; intros s s' H; auto.
  destruct s as [|c s], s' as [|c' s']; simpl in H; try discriminate; auto.
  inversion H. simpl. f_equal. auto.
Qed.

Lemma lit_at_length (pat s : str) :
  lit_at letter_eq pat s = true -> (length pat <= length s)%nat.
Proof.
  revert s. induction pat as [|p pat IH]; intros s H; simpl; [lia|].
  destruct s as [|c s]; [discriminate|].
  simpl in H. apply andb_true_iff in H. destruct H as [_ H].
  specialize (IH _ H). simpl. lia.
Qed.

Lemma find_gt_spec (s : str) (j : nat) :
  find_gt s = Some j -> nth_error s j = Some 62%N.
Proof.
  revert j. induction s as [|c s IH]; intros j; simpl; [discriminate|].
  destruct (N.eqb_spec c 62).
  - intros H. inversion H. subst. reflexivity.
  - destruct (find_gt s) as [k|]; [|discriminate].
    intros H. inversion H. simpl. auto.
Qed.

Lemma find_gt_exists (s : str) (n : nat) :
  nth_error s n = Some 62%N ->
  exists j, find_gt s = Some j /\ (j <= n)%nat.
Proof.
  revert n. induction s as [|c s IH]; intros n H.
  - destruct n; discriminate.
  - simpl. destruct (N.eqb_spec c 62).
    + exists 0%nat. split; [reflexivity | lia].
    + destruct n as [|n]; [simpl in H; congruence|].
      destruct (IH n H) as (j & E & Hj). rewrite E.
      exists (S j). split; [reflexivity | lia].
Qed.

Lemma find_gt_app (s1 s2 : str) (j : nat) :
  find_gt s1 = Some j -> find_gt (s1 ++ s2) = Some j.
Proof.
  revert j. induction s1 as [|c s1 IH]; intros j; simpl; [discriminate|].
  destruct (c =? 62)%N; auto.
  destruct (find_gt s1) as [k|]; [|discriminate].
  intros H. now rewrite (IH k eq_refl).
Qed.

Lemma find_gt_firstn (s : str) (j : nat) :
  find_gt s = Some j -> find_gt (firstn (S j) s) = Some j.
Proof.
  revert j. induction s as [|c s IH]; intros j; [discriminate|].
  cbn [find_gt firstn]. destruct (c =? 62)%N; auto.
  destruct (find_gt s) as [k|] eqn:E; [|discriminate].
  intros H. inversion H. subst. now rewrite (IH k eq_refl).
Qed.

Lemma find_lit_spec (pat s : str) (k : nat) :
  find_lit letter_eq pat s = Some k ->
  lit_at letter_eq pat (skipn k s) = true /\ (k <= length s)%nat.
Proof.
  revert k. induction s as [|c s IH]; intros k.
  - simpl. destruct (lit_at letter_eq pat []) eqn:E; [|discriminate].
    intros H. inversion H. subst. split; [exact E | simpl; lia].
  - cbn [find_lit]. destruct (lit_at letter_eq pat (c :: s)) eqn:E.
    + intros H. inversion H. subst. split; [exact E | simpl; lia].
    + destruct (find_lit letter_eq pat s) as [k'|]; [|discriminate].
      intros H. inversion H. subst. destruct (IH k' eq_refl).
      split; [assumption | simpl; lia].
Qed.

Lemma find_lit_exists (pat s : str) (n : nat) :
  lit_at letter_eq pat (skipn n s) = true -> (n <= length s)%nat ->
  exists k, find_lit letter_eq pat s = Some k /\ (k <= n)%nat.
Proof.
  revert n. induction s as [|c s IH]; intros n H Hn.
  - simpl in Hn. assert (n = 0%nat) by lia. subst. simpl in H.
    exists 0%nat. simpl. rewrite H. auto.
  - cbn [find_lit]. destruct (lit_at letter_eq pat (c :: s)) eqn:E.
    + exists 0%nat. split; [reflexivity | lia].
    + destruct n as [|n]; [simpl in H; congruence|].
      simpl in H, Hn. destruct (IH n H ltac:(lia)) as (k & Ek & Hk).
      rewrite Ek. exists (S k). split; [reflexivity | lia].
Qed.

(** A literal that starts with [<] is not found inside a text without [<]:
    the search goes on after it. *)
Lemma find_lit_after (pat esc rest : str) :
  ~ In 60%N esc ->
  lit_at letter_eq (60%N :: pat) rest = true ->
  find_lit letter_eq (60%N :: pat) (esc ++ rest) = Some (length esc).
Proof.
  intros Hn Hr. induction esc as [|c esc IH].
  - simpl app. destruct rest; cbn [find_lit]; now rewrite Hr.
  - simpl app. cbn [find_lit].
    assert (E : lit_at letter_eq (60%N :: pat) (c :: esc ++ rest) = false).
    { cbn [lit_at]. unfold pat_matches.
      change (is_letter 60%N) with false. cbv iota.
      destruct (N.eqb_spec 60 c) as [<- | _]; [|reflexivity].
      exfalso. apply Hn. now left. }
    rewrite E, IH; auto. intros H. apply Hn. now right.
Qed.

(** What a match of [TITLE_RE] at the start of [s] tells. *)
Lemma title_match_spec (s : str) (a b : nat) :
  title_match letter_eq s = Some (a, b) ->
  lit_at letter_eq (lit "<title") s = true
  /\ (exists j, find_gt (skipn 6 s) = Some j /\ a = (7 + j)%nat)
  /\ (exists k, find_lit letter_eq (lit "</title>") (skipn a s) = Some k
                /\ b = (a + k)%nat).
Proof.
  unfold title_match.
  destruct (lit_at letter_eq (lit "<title") s); [|discriminate].
  destruct (find_gt (skipn 6 s)) as [j|]; [|discriminate]. cbv zeta.
  destruct (find_lit letter_eq (lit "</title>") (skipn (6 + j + 1) s))
    as [k|] eqn:E; [|discriminate].
  intros H. inversion H. subst. split; auto. split.
  - exists j. split; auto. lia.
  - exists k. auto.
Qed.

Lemma title_match_facts (s : str) (a b : nat) :
  title_match letter_eq s = Some (a, b) ->
  (7 <= a <= b)%nat /\ (b <= length s)%nat
  /\ nth_error s (a - 1) = Some 62%N
  /\ lit_at letter_eq (lit "</title>") (skipn b s) = true.
Proof.
  intros H. apply title_match_spec in H.
  destruct H as (_ & (j & Ej & ->) & (k & Ek & ->)).
  apply find_gt_spec in Ej. rewrite nth_error_skipn in Ej.
  apply find_lit_spec in Ek. destruct Ek as [Ek Hk].
  rewrite skipn_skipn in Ek. rewrite length_skipn in Hk.
  assert (Hlt : (6 + j < length s)%nat).
  { apply nth_error_Some. congruence. }
  repeat split; try lia.
  - replace (7 + j - 1)%nat with (6 + j)%nat by lia. exact Ej.
  - now rewrite Nat.add_comm.
Qed.

Lemma title_search_facts (doc : str) (a b : nat) :
  title_search letter_eq doc = Some (a, b) ->
  (7 <= a <= b)%nat /\ (b <= length doc)%nat
  /\ nth_error doc (a - 1) = Some 62%N
  /\ lit_at letter_eq (lit "</title>") (skipn b doc) = true.
Proof.
  revert a b. induction doc as [|c doc IH]; intros a b.
  - cbn [title_search].
    destruct (title_match letter_eq []) as [m|] eqn:E; [|discriminate].
    intros H. inversion H. subst. now apply title_match_facts.
  - cbn [title_search].
    destruct (title_match letter_eq (c :: doc)) as [m|] eqn:E.
    + intros H. inversion H. subst. now apply title_match_facts.
    + destruct (title_search letter_eq doc) as [[a' b']|]; [|discriminate].
      intros H. inversion H. subst.
      destruct (IH a' b' eq_refl) as (H1 & H2 & H3 & H4).
      repeat split; simpl; try lia; auto.
      replace (a' - 0)%nat with (S (a' - 1)) by lia. exact H3.
Qed.

(** Where a later match exists, [<title] at the start begins a match. *)
Lemma title_match_before (c : char) (doc : str) (a b : nat) :
  lit_at letter_eq (lit "<title") (c :: doc) = true ->
  title_search letter_eq doc = Some (a, b) ->
  exists m, title_match letter_eq (c :: doc) = Some m.
Proof.
  intros Hl Hs. apply title_search_facts in Hs.
  destruct Hs as (Ha & Hb & Hgt & Hend).
  unfold title_match. rewrite Hl.
  destruct (find_gt_exists (skipn 6 (c :: doc)) (a - 6)) as (j & Ej & Hj).
  { rewrite nth_error_skipn.
    replace (6 + (a - 6))%nat with (S (a - 1)) by lia. exact Hgt. }
  rewrite Ej. cbv zeta.
  destruct (find_lit_exists (lit "</title>") (skipn (6 + j + 1) (c :: doc))
              (S b - (6 + j + 1))) as (k & Ek & _).
  - rewrite skipn_skipn.
    replace (S b - (6 + j + 1) + (6 + j + 1))%nat with (S b) by lia.
    exact Hend.
  - rewrite length_skipn. simpl. lia.
  - rewrite Ek. eauto.
Qed.

End TitleReFacts.

Section TitleReplace.

Variable letter_eq : char -> char -> bool.

Lemma title_search_of_match (doc : str) (m : nat * nat) :
  title_match letter_eq doc = Some m -> title_search letter_eq doc = Some m.
Proof. intros H. destruct doc; cbn [title_search]; now rewrite H. Qed.

Lemma firstn_spliced (doc x : str) (n a : nat) :
  (n <= a <= length doc)%nat -> firstn n (firstn a doc ++ x) = firstn n doc.
Proof.
  intros H. rewrite firstn_app, firstn_firstn, length_firstn.
  replace (n - Nat.min a (length doc))%nat with 0%nat by lia.
  replace (Nat.min n a) with n by lia. simpl. apply app_nil_r.
Qed.

Lemma skipn_spliced (doc x : str) (a : nat) :
  (a <= length doc)%nat -> skipn a (firstn a doc ++ x) = x.
Proof.
  intros H. rewrite skipn_app, length_firstn.
  replace (a - Nat.min a (length doc))%nat with 0%nat by lia.
  rewrite skipn_firstn_comm, Nat.sub_diag. reflexivity.
Qed.

(** Splicing a text without [<] in place of group 2 leaves the match where
    it was, with the new text as group 2. *)
Lemma title_match_spliced (doc esc : str) (a b : nat) :
  title_match letter_eq doc = Some (a, b) -> ~ In 60%N esc ->
  title_match letter_eq (firstn a doc ++ esc ++ skipn b doc)
  = Some (a, (a + length esc)%nat).
Proof.
  intros Hm Hn.
  destruct (title_match_facts _ _ _ _ Hm) as (Ha & Hb & _ & Hend).
  apply title_match_spec in Hm.
  destruct Hm as (Hl & (j & Ej & Ea) & _).
  unfold title_match.
  rewrite (lit_at_firstn letter_eq (lit "<title") _ doc)
    by (apply firstn_spliced; simpl; lia).
  rewrite Hl.
  assert (E6 : skipn 6 (firstn a doc ++ esc ++ skipn b doc)
               = firstn (S j) (skipn 6 doc) ++ esc ++ skipn b doc).
  { rewrite skipn_app, length_firstn, skipn_firstn_comm.
    replace (6 - Nat.min a (length doc))%nat with 0%nat by lia.
    replace (a - 6)%nat with (S j) by lia. reflexivity. }
  rewrite E6, (find_gt_app _ _ j (find_gt_firstn _ _ Ej)). cbv zeta.
  replace (6 + j + 1)%nat with a by lia.
  rewrite skipn_spliced by lia.
  change (lit "</title>") with (60%N :: lit "/title>") in *.
  now rewrite find_lit_after.
Qed.

Lemma title_search_spliced (doc esc : str) (a b : nat) :
  title_search letter_eq doc = Some (a, b) -> ~ In 60%N esc ->
  title_search letter_eq (firstn a doc ++ esc ++ skipn b doc)
  = Some (a, (a + length esc)%nat).
Proof.
  intros Hs Hn. revert a b Hs.
  induction doc as [|c doc IH]; intros a b Hs.
  - cbn [title_search] in Hs.
    destruct (title_match letter_eq []) as [m|] eqn:E; [|discriminate].
    inversion Hs. subst.
    now apply title_search_of_match, title_match_spliced.
  - cbn [title_search] in Hs.
    destruct (title_match letter_eq (c :: doc)) as [m|] eqn:E.
    + inversion Hs. subst.
      now apply title_search_of_match, title_match_spliced.
    + destruct (title_search letter_eq doc) as [[a' b']|] eqn:Es;
        [|discriminate].
      inversion Hs. subst.
      destruct (title_search_facts _ _ _ _ Es) as (Ha & Hb & _).
      change (firstn (S a') (c :: doc) ++ esc ++ skipn (S b') (c :: doc))
        with (c :: (firstn a' doc ++ esc ++ skipn b' doc)).
      cbn [title_search]. rewrite (IH a' b' eq_refl).
      assert (El : lit_at letter_eq (lit "<title")
                     (c :: firstn a' doc ++ esc ++ skipn b' doc) = false).
      { rewrite (lit_at_firstn letter_eq (lit "<title") _ (c :: doc)).
        - destruct (lit_at letter_eq (lit "<title") (c :: doc)) eqn:El; auto.
          destruct (title_match_before letter_eq c doc a' b' El Es) as [m Em].
          congruence.
        - change (length (lit "<title")) with 6%nat.
          change (firstn 6 (c :: firstn a' doc ++ esc ++ skipn b' doc))
            with (c :: firstn 5 (firstn a' doc ++ esc ++ skipn b' doc)).
          rewrite firstn_spliced by lia. reflexivity. }
      unfold title_match. rewrite El. reflexivity.
Qed.

Lemma slice_to (doc : str) (a : nat) :
  (a <= length doc)%nat -> slice doc 0 (Z.of_nat a) = firstn a doc.
Proof.
  intros H. rewrite slice_from_0.
  replace (clamp_index (len doc) (Z.of_nat a)) with (Z.of_nat a)
    by (unfold clamp_index, len;
        destruct (Z.ltb_spec (Z.of_nat a) 0); lia).
  now rewrite Nat2Z.id.
Qed.

Lemma slice_between (doc : str) (a b : nat) :
  (a <= b <= length doc)%nat ->
  slice doc (Z.of_nat a) (Z.of_nat b) = firstn (b - a) (skipn a doc).
Proof.
  intros H. unfold slice.
  replace (clamp_index (len doc) (Z.of_nat a)) with (Z.of_nat a)
    by (unfold clamp_index, len;
        destruct (Z.ltb_spec (Z.of_nat a) 0); lia).
  replace (clamp_index (len doc) (Z.of_nat b)) with (Z.of_nat b)
    by (unfold clamp_index, len;
        destruct (Z.ltb_spec (Z.of_nat b) 0); lia).
  rewrite Nat2Z.id. f_equal. lia.
Qed.

Lemma slice_from (doc : str) (b : nat) :
  (b <= length doc)%nat -> slice doc (Z.of_nat b) (len doc) = skipn b doc.
Proof.
  intros H. unfold len. rewrite slice_between by lia.
  apply firstn_all2. rewrite length_skipn. lia.
Qed.

(** The document cut around group 2 of the match. *)
Lemma title_split (doc : str) (a b : nat) :
  (a <= b <= length doc)%nat ->
  doc = firstn a doc ++ firstn (b - a) (skipn a doc) ++ skipn b doc.
Proof.
  intros H. rewrite <- (firstn_skipn a doc) at 1. f_equal.
  rewrite <- (firstn_skipn (b - a) (skipn a doc)) at 1. f_equal.
  rewrite skipn_skipn. f_equal. lia.
Qed.

Lemma replace_title_spec (doc new_title doc2 : str) :
  _find_and_replace_title letter_eq doc new_title = (doc2, true) ->
  exists a b,
    title_search letter_eq doc = Some (a, b)
    /\ (a <= b <= length doc)%nat
    /\ doc2 = firstn a doc ++ _escape_text new_title ++ skipn b doc
    /\ title_search letter_eq doc2
       = Some (a, (a + length (_escape_text new_title))%nat).
Proof.
  unfold _find_and_replace_title.
  destruct (title_search letter_eq doc) as [[a b]|] eqn:Es; [|discriminate].
  destruct (title_search_facts _ _ _ _ Es) as (Ha & Hb & _).
  rewrite slice_to, slice_from by lia.
  intros H. inversion H. exists a, b. repeat split; auto; try lia.
  apply title_search_spliced; auto.
  apply (escape_no_markup new_title).
Qed.

End TitleReplace.

Section TitleTheorems.

Variable letter_eq : char -> char -> bool.
Variable unescape : str -> str.
Variable lower : str -> str.

Lemma replace_title_roundtrip (doc new_title doc2 : str) :
  _find_and_replace_title letter_eq doc new_title = (doc2, true) ->
  title_content letter_eq doc2 = Some (_escape_text new_title)
  /\ exists pre old post,
       doc = pre ++ old ++ post
       /\ title_content letter_eq doc = Some old
       /\ doc2 = pre ++ _escape_text new_title ++ post.
Proof.
  intros H. apply replace_title_spec in H.
  destruct H as (a & b & Es & Hab & E2 & Es2).
  assert (Hlen : length doc2
                 = (a + length (_escape_text new_title)
                    + (length doc - b))%nat).
  { rewrite E2, !length_app, length_firstn, length_skipn. lia. }
  split.
  - unfold title_content. rewrite Es2.
    rewrite slice_between by lia. f_equal.
    rewrite E2, skipn_spliced by lia.
    replace (a + length (_escape_text new_title) - a)%nat
      with (length (_escape_text new_title)) by lia.
    rewrite firstn_app, Nat.sub_diag, firstn_all. simpl. apply app_nil_r.
  - exists (firstn a doc), (firstn (b - a) (skipn a doc)), (skipn b doc).
    split; [now apply title_split|]. split; [|exact E2].
    unfold title_content. rewrite Es. now rewrite slice_between.
Qed.

(** X19. Replacing the title is a splice with a round trip: when
    [_find_and_replace_title] reports [True], the new document is the old
    one with the content of its title element replaced by the escaped new
    title, everything before and after it unchanged, and the title element
    found in the new document holds exactly that escaped title. *)
Theorem X19_replace_title_roundtrip (doc new_title doc2 : str) :
  _find_and_replace_title letter_eq doc new_title = (doc2, true) ->
  title_content letter_eq doc2 = Some (_escape_text new_title)
  /\ exists pre old post,
       doc = pre ++ old ++ post
       /\ title_content letter_eq doc = Some old
       /\ doc2 = pre ++ _escape_text new_title ++ post.
Proof. apply replace_title_roundtrip. Qed.

(** X20. Replacing the title is idempotent: writing the same title again
    into the document just written returns the same document. *)
Theorem X20_replace_title_idempotent (doc new_title doc2 : str) :
  _find_and_replace_title letter_eq doc new_title = (doc2, true) ->
  _find_and_replace_title letter_eq doc2 new_title = (doc2, true).
Proof.
  intros H. apply replace_title_spec in H.
  destruct H as (a & b & Es & Hab & E2 & Es2).
  assert (Hlen : length doc2
                 = (a + length (_escape_text new_title)
                    + (length doc - b))%nat).
  { rewrite E2, !length_app, length_firstn, length_skipn. lia. }
  unfold _find_and_replace_title. rewrite Es2.
  rewrite slice_to, slice_from by lia. f_equal.
  rewrite E2 at 1 2.
  rewrite firstn_spliced by lia.
  replace (a + length (_escape_text new_title))%nat
    with (length (_escape_text new_title) + a)%nat by lia.
  rewrite <- skipn_skipn, skipn_spliced by lia.
  rewrite skipn_app, skipn_all, Nat.sub_diag. simpl. now rewrite E2.
Qed.

(** X21. Reading and replacing the title agree on whether there is one:
    without a title element [_extract_title] returns [None] and
    [_find_and_replace_title] returns the document unchanged with [False];
    with one, the title read is whitespace-normalized and the replacement
    reports [True]. *)
Theorem X21_extract_and_replace_agree (doc new_title : str) :
  match _extract_title letter_eq unescape doc with
  | None => _find_and_replace_title letter_eq doc new_title = (doc, false)
  | Some t =>
      _normalize_space t = t
      /\ snd (_find_and_replace_title letter_eq doc new_title) = true
  end.
Proof.
  unfold _extract_title, title_content, _find_and_replace_title.
  destruct (title_search letter_eq doc) as [[a b]|]; [|reflexivity].
  split; [apply normalize_space_idem | reflexivity].
Qed.

End TitleTheorems.

(** ** The title branch of [fix_file] *)

Lemma str_eqb_refl (a : str) : str_eqb a a = true.
Proof. unfold str_eqb. destruct (list_eq_dec N.eq_dec a a); congruence. Qed.

Section FixTitle.

Variable letter_eq : char -> char -> bool.
Variable unescape : str -> str.
Variable lower : str -> str.

(** X22. A title already in range is left alone: when the title read from
    the document has its length in [title_min, title_max], the title branch
    of [fix_file] returns the document unchanged, with [changed] false. *)
Theorem X22_fix_title_in_range_untouched (doc t : str)
  (title_min title_max : Z) :
  _extract_title letter_eq unescape doc = Some t ->
  title_min <= len t <= title_max ->
  fix_file_title letter_eq unescape lower doc title_min title_max
  = (doc, false, Some t).
Proof.
  intros He Hr. unfold fix_file_title. cbv zeta. rewrite He.
  assert (Hc : _normalize_space t = t).
  { unfold _extract_title in He.
    destruct (title_content letter_eq doc); inversion He.
    apply normalize_space_idem. }
  rewrite smart_title_in_range by (rewrite Hc; exact Hr).
  rewrite Hc, str_eqb_refl. reflexivity.
Qed.

(** X23. What the title branch of [fix_file] does: either it changes nothing
    (the document and the title are the old ones, [changed] is false), or
    the document had a title [t], the new title is [_smart_title t], it
    differs from [t], [changed] is true, and the new document is the old one
    with the escaped new title as the content of its title element. *)
Theorem X23_fix_title_result (doc : str) (title_min title_max : Z) :
  let r := fix_file_title letter_eq unescape lower doc title_min title_max in
  (r = (doc, false, _extract_title letter_eq unescape doc))
  \/ exists t doc2,
       _extract_title letter_eq unescape doc = Some t
       /\ _smart_title lower t title_min title_max <> t
       /\ r = (doc2, true, Some (_smart_title lower t title_min title_max))
       /\ _find_and_replace_title letter_eq doc
            (_smart_title lower t title_min title_max) = (doc2, true)
       /\ title_content letter_eq doc2
          = Some (_escape_text (_smart_title lower t title_min title_max)).
Proof.
  cbv zeta. unfold fix_file_title. cbv zeta.
  destruct (_extract_title letter_eq unescape doc) as [t|] eqn:He; [|now left].
  destruct (str_eqb (_smart_title lower t title_min title_max) t) eqn:Eq;
    [now left|].
  cbn [negb].
  destruct (_find_and_replace_title letter_eq doc
              (_smart_title lower t title_min title_max))
    as [doc2 ok] eqn:Er.
  destruct ok; [right | left].
  2: { unfold _find_and_replace_title in Er.
       destruct (title_search letter_eq doc) as [[a b]|]; congruence. }
  exists t, doc2. repeat split; auto.
  - now apply str_eqb_false.
  - eapply replace_title_roundtrip; eauto.
Qed.

End FixTitle.

Lemma X22_fix_title_in_range_untouched_witness :
  (_extract_title ascii_letter_eq (fun s => s) sample_page
   = Some (lit "Roofing contractor in Detroit, Michigan")
   /\ 30 <= len (lit "Roofing contractor in Detroit, Michigan") <= 60)
  /\ fix_file_title ascii_letter_eq (fun s => s) ascii_lower sample_page 30 60
     = (sample_page, false,
        Some (lit "Roofing contractor in Detroit, Michigan")).
Proof.
  split; [by_eval|].
  apply (X22_fix_title_in_range_untouched ascii_letter_eq (fun s => s)
           ascii_lower sample_page
           (lit "Roofing contractor in Detroit, Michigan") 30 60); by_eval.
Defined.

Lemma X19_replace_title_roundtrip_witness :
  _find_and_replace_title ascii_letter_eq sample_page (lit "Roofs & <more>")
  = (lit "<html><head><TITLE>Roofs &amp; &lt;more&gt;</title></head></html>",
     true)
  /\ title_content ascii_letter_eq
       (lit "<html><head><TITLE>Roofs &amp; &lt;more&gt;</title></head></html>")
     = Some (_escape_text (lit "Roofs & <more>"))
  /\ exists pre old post,
       sample_page = pre ++ old ++ post
       /\ title_content ascii_letter_eq sample_page = Some old
       /\ lit "<html><head><TITLE>Roofs &amp; &lt;more&gt;</title></head></html>"
          = pre ++ _escape_text (lit "Roofs & <more>") ++ post.
Proof.
  split; [by_eval|].
  apply (X19_replace_title_roundtrip ascii_letter_eq sample_page
           (lit "Roofs & <more>")).
  by_eval.
Defined.

Lemma X20_replace_title_idempotent_witness :
  _find_and_replace_title ascii_letter_eq sample_page (lit "Roofs & <more>")
  = (lit "<html><head><TITLE>Roofs &amp; &lt;more&gt;</title></head></html>",
     true)
  /\ _find_and_replace_title ascii_letter_eq
       (lit "<html><head><TITLE>Roofs &amp; &lt;more&gt;</title></head></html>")
       (lit "Roofs & <more>")
     = (lit "<html><head><TITLE>Roofs &amp; &lt;more&gt;</title></head></html>",
        true).
Proof.
  split; [by_eval|].
  apply (X20_replace_title_idempotent ascii_letter_eq sample_page
           (lit "Roofs & <more>")).
  by_eval.
Defined.
